(** * mdgo.coordination: site residency and hopping detection

    A shallow embedding of [trajectory], [find_nearest] and [find_in_n_out]
    of [src/mdgo/coordination.py], and the properties of the hysteresis
    state machine, the episode reducer and the hop event extractor.

    Conventions of the embedding:
    - a Python [dict] of distance series is an association list in
      insertion order (the order decides the tie-break of [min]);
    - a distance is a rational number; the code only compares distances
      and stores them;
    - a Python exception is a [Raise] in the [result] monad; the value
      [None] returned by [trajectory] is an [option]. *)

From stdpp Require Import base option list sorting gmap strings.
From Stdlib Require Import ZArith QArith Lia.

Local Open Scope Z_scope.

(** ** Exceptions *)

Inductive exn := IndexError | TypeError | ValueError.

Inductive result (A : Type) :=
| Ok (a : A)
| Raise (e : exn).
Arguments Ok {A} a.
Arguments Raise {A} e.

#[global] Instance result_ret : MRet result := fun _ a => Ok a.
#[global] Instance result_bind : MBind result := fun _ _ f m =>
  match m with
  | Ok a => f a
  | Raise e => Raise e
  end.

(** [l[i]] for a non-negative index. *)
Definition subscript {A} (l : list A) (i : nat) : result A :=
  match l !! i with
  | Some a => Ok a
  | None => Raise IndexError
  end.

(** [l[i] = x] for a non-negative index. *)
Definition setitem {A} (l : list A) (i : nat) (x : A) : result (list A) :=
  if decide (i < length l)%nat then Ok (<[i:=x]> l) else Raise IndexError.

(** ** Keys and distances *)

(** A key of the distance dictionary is a Python [int] or the decimal
    string [str n] of an integer ([trajectory] writes [str(atom.id)]). *)
Inductive key :=
| KInt (n : Z)
| KStr (n : Z).

#[global] Instance key_eq_dec : EqDecision key.
Proof. solve_decision. Defined.

(** [k == 0]: a string never equals the integer [0]. *)
Definition py_eq_zero (k : key) : bool :=
  match k with
  | KInt n => bool_decide (n = 0)
  | KStr _ => false
  end.

(** [int(k)]. *)
Definition py_int (k : key) : Z :=
  match k with
  | KInt n => n
  | KStr n => n
  end.

Definition Qgt_bool (x y : Q) : bool := negb (Qle_bool x y).
Definition Qlt_bool (x y : Q) : bool := negb (Qle_bool y x).

(** The sentinel distance [100]. *)
Definition sentinel : Q := 100 # 1.

(** The dictionary of distance series, in insertion order. *)
Abbreviation dist_dict := (list (key * list Q)).

Definition keys (trj : dist_dict) : list key := trj.*1.

(** [trj.get(k)] *)
Fixpoint dict_get (trj : dist_dict) (k : key) : option (list Q) :=
  match trj with
  | [] => None
  | (k', s) :: trj' => if decide (k' = k) then Some s else dict_get trj' k
  end.

(** [trj.get(k)[t]], also [trj[k][t]] for a key of [trj]. *)
Definition get_at (trj : dist_dict) (k : key) (t : nat) : result Q :=
  match dict_get trj k with
  | Some s => subscript s t
  | None => Raise TypeError
  end.

(** [min(trj, key=lambda k: trj[k][t])]: the first key of least value. *)
Fixpoint min_from (trj : dist_dict) (t : nat) (best : key) (best_val : Q)
    (ks : list key) : result key :=
  match ks with
  | [] => Ok best
  | k :: ks' =>
      v ← get_at trj k t;
      if Qlt_bool v best_val then min_from trj t k v ks'
      else min_from trj t best best_val ks'
  end.

Definition py_min (trj : dist_dict) (t : nat) : result key :=
  match keys trj with
  | [] => Raise ValueError
  | k :: ks => v ← get_at trj k t; min_from trj t k v ks
  end.

(** ** The site assignment state machine ([find_nearest], lines 58-78) *)

Section Assignment.
Variables (trj : dist_dict) (distance hopping_cutoff : Q).

(** One iteration of [for time in range(1, time_span)]. *)
Definition assign_step (st : list key * list Q) (time : nat)
    : result (list key * list Q) :=
  let '(sites, site_distance) := st in
  prev ← subscript sites (time - 1);
  old_site_distance ←
    (if py_eq_zero prev then Ok sentinel else get_at trj prev time);
  if Qgt_bool old_site_distance hopping_cutoff then
    new_site ← py_min trj time;
    new_site_distance ← get_at trj new_site time;
    if Qgt_bool new_site_distance distance then
      site_distance' ← setitem site_distance time sentinel;
      Ok (sites, site_distance')
    else
      sites' ← setitem sites time new_site;
      site_distance' ← setitem site_distance time new_site_distance;
      Ok (sites', site_distance')
  else
    sites' ← setitem sites time prev;
    site_distance' ← setitem site_distance time old_site_distance;
    Ok (sites', site_distance').

Fixpoint assign_loop (times : list nat) (st : list key * list Q)
    : result (list key * list Q) :=
  match times with
  | [] => Ok st
  | time :: times' => st' ← assign_step st time; assign_loop times' st'
  end.

(** Lines 58-77: the site list before [int] and the recorded distances. *)
Definition assign_raw (time_span : nat) : result (list key * list Q) :=
  let site_distance := replicate time_span sentinel in
  let sites := replicate time_span (KInt 0) in
  site0 ← py_min trj 0;
  sites ← setitem sites 0 site0;
  d0 ← get_at trj site0 0;
  site_distance ← setitem site_distance 0 d0;
  assign_loop (seq 1 (time_span - 1)) (sites, site_distance).

(** Lines 58-78: [sites = [int(i) for i in sites]]. *)
Definition site_machine (time_span : nat) : result (list Z * list Q) :=
  match assign_raw time_span with
  | Ok (sites, site_distance) => Ok (py_int <$> sites, site_distance)
  | Raise e => Raise e
  end.
End Assignment.

(** Line 55: [len(list(trj.values())[0])]. *)
Definition time_span_of (trj : dist_dict) : result nat :=
  match trj with
  | [] => Raise IndexError
  | (_, s) :: _ => Ok (length s)
  end.

(** The state machine on a trajectory as it is (lines 55 and 58-78):
    the AssignmentSequence as its two columns. *)
Definition assign_sites (trj : dist_dict) (distance hopping_cutoff : Q)
    : result (list Z * list Q) :=
  time_span ← time_span_of trj;
  site_machine trj distance hopping_cutoff time_span.

(** ** The frequency and episode reducer ([find_nearest], lines 79-101) *)

(** One iteration of [for i, step in enumerate(sites_and_distance_array)];
    the state is [(steps, closest_step, previous_site)]. *)
Definition steps_step (arr : list (Z * Q)) (st : list nat * nat * Z)
    (i : nat) (step : Z * Q) : result (list nat * nat * Z) :=
  let '(steps, closest_step, previous_site) := st in
  let site := step.1 in
  let distance := step.2 in
  if bool_decide (site = 0) then Ok st
  else if bool_decide (site = previous_site) then
    best ← subscript arr closest_step;
    if Qlt_bool distance best.2 then Ok (steps, i, previous_site)
    else Ok st
  else Ok (steps ++ [closest_step], i, site).

Fixpoint steps_loop (arr : list (Z * Q)) (i : nat) (rows : list (Z * Q))
    (st : list nat * nat * Z) : result (list nat * nat * Z) :=
  match rows with
  | [] => Ok st
  | step :: rows' => st' ← steps_step arr st i step; steps_loop arr (S i) rows' st'
  end.

(** Lines 79-99.  [sites] and [site_distance] have the same length, so the
    array of rows [[sites[i], site_distance[i]]] is their [zip]; the test
    [previous_site is not None] always holds. *)
Definition closest_steps (sites : list Z) (site_distance : list Q)
    : result (list nat) :=
  let sites_and_distance_array := zip sites site_distance in
  row0 ← subscript sites_and_distance_array 0;
  st ← steps_loop sites_and_distance_array 0 sites_and_distance_array
         ([], 0%nat, row0.1);
  Ok (st.1.1 ++ [st.1.2]).

(** [(np.diff(l) != 0).sum()] *)
Fixpoint count_changes (l : list Z) : Z :=
  match l with
  | a :: (b :: _) as l' => (if bool_decide (b - a ≠ 0) then 1 else 0) + count_changes l'
  | _ => 0
  end.

(** [[i for i in sites if i != 0]] *)
Definition nonzero_sites (sites : list Z) : list Z := filter (λ i, i ≠ 0) sites.

(** Line 100. *)
Definition hop_count (sites : list Z) : Z := count_changes (nonzero_sites sites).

(** Line 101. *)
Definition hop_frequency (sites : list Z) (time_span : nat) (time_step : Q) : Q :=
  (inject_Z (hop_count sites) / (inject_Z (Z.of_nat time_span) * time_step))%Q.

(** ** [find_nearest] and [find_in_n_out] *)

Section Smoothing.
(** [scipy.signal.savgol_filter(x, window_length, polyorder)], an external
    numeric primitive. *)
Variable savgol_filter : list Q → Z → Z → result (list Q).

(** Lines 56-57: every series is replaced by its smoothed series. *)
Fixpoint smooth_all (trj : dist_dict) (smooth : Z) : result dist_dict :=
  match trj with
  | [] => Ok []
  | (kw, s) :: trj' =>
      s' ← savgol_filter s smooth 2;
      trj'' ← smooth_all trj' smooth;
      Ok ((kw, s') :: trj'')
  end.

Definition find_nearest (trj : dist_dict) (time_step distance hopping_cutoff : Q)
    (smooth : Z) : result (list Z * Q * list nat) :=
  time_span ← time_span_of trj;
  trj ← smooth_all trj smooth;
  match site_machine trj distance hopping_cutoff time_span with
  | Ok (sites, site_distance) =>
      steps ← closest_steps sites site_distance;
      Ok (sites, hop_frequency sites time_span time_step, steps)
  | Raise e => Raise e
  end.
End Smoothing.

(** ** The hop event extractor ([find_in_n_out], lines 140-163) *)

Record hop_state := HopState {
  last : Z;
  steps_in : list nat;
  steps_out : list nat;
  in_cool : Z;
  out_cool : Z
}.

(** [l.pop()] as a statement: the last entry is dropped. *)
Definition pop (l : list nat) : result (list nat) :=
  match l with
  | [] => Raise IndexError
  | _ => Ok (removelast l)
  end.

(** One iteration of [for i, s in enumerate(sites)]. *)
Definition hop_step (cool : Z) (st : hop_state) (i : nat) (s : Z) : result hop_state :=
  st' ←
    (if bool_decide (last st = s) then Ok st
     else if bool_decide (last st = 0) then
       let steps_in' := steps_in st ++ [i] in
       steps_out' ← (if bool_decide (out_cool st < cool) then pop (steps_out st)
                     else Ok (steps_out st));
       Ok (HopState (last st) steps_in' steps_out' 0 (out_cool st))
     else if bool_decide (s = 0) then
       let steps_out' := steps_out st ++ [i] in
       steps_in' ← (if bool_decide (in_cool st < cool) then pop (steps_in st)
                    else Ok (steps_in st));
       Ok (HopState (last st) steps_in' steps_out' (in_cool st) 0)
     else Ok st);
  Ok (HopState s (steps_in st') (steps_out st') (in_cool st' + 1) (out_cool st' + 1)).

Fixpoint hop_loop (cool : Z) (i : nat) (sites : list Z) (st : hop_state)
    : result hop_state :=
  match sites with
  | [] => Ok st
  | s :: sites' => st' ← hop_step cool st i s; hop_loop cool (S i) sites' st'
  end.

(** Lines 140-163 on a site list. *)
Definition hop_events (cool : Z) (sites : list Z) : result (list nat * list nat) :=
  last0 ← subscript sites 0;
  st ← hop_loop cool 0 sites (HopState last0 [] [] cool cool);
  Ok (steps_in st, steps_out st).

Section SmoothingHops.
Variable savgol_filter : list Q → Z → Z → result (list Q).

Definition find_in_n_out (trj : dist_dict) (distance hopping_cutoff : Q)
    (smooth cool : Z) : result (list nat * list nat) :=
  time_span ← time_span_of trj;
  trj ← smooth_all savgol_filter trj smooth;
  match site_machine trj distance hopping_cutoff time_span with
  | Ok (sites, _) => hop_events cool sites
  | Raise e => Raise e
  end.
End SmoothingHops.

(** ** The distance trajectory builder ([trajectory], lines 18-40) *)

(** The selection string
    ["(" + sel + ") and (around " + str(distance) + " index " + str(i) + ")"]
    by its three parts. *)
Record selection := Selection {
  sel_species : string;
  sel_around : Q;
  sel_index : Z
}.

(** The universe [nvt_run]: the number of frames of its trajectory, the ids
    of the atoms [select_atoms] returns at a frame, and [distance_array] of
    the positions of two atom indices at a frame under the frame's box. *)
Record Universe := {
  n_frames : nat;
  select_atoms : nat → selection → list Z;
  distance_array : nat → Z → Z → Q
}.

(** What the builder does to the outside: what it prints and what it asks
    of the universe. *)
Inductive event :=
| EvPrint (msg : string)
| EvSelect (ts : nat) (sel : selection)
| EvDistance (ts : nat) (i j : Z).

(** [nvt_run.trajectory[run_start:run_end:]] for non-negative bounds: the
    frame numbers of the slice. *)
Definition slice_frames (U : Universe) (run_start run_end : nat) : list nat :=
  seq run_start (run_end `min` n_frames U - run_start).

(** Events are written in order, and an exception ends the run. *)
Definition io (A : Type) : Type := list event * result A.

#[global] Instance io_ret : MRet io := fun _ a => ([], Ok a).
#[global] Instance io_bind : MBind io := fun _ _ f m =>
  match m.2 with
  | Ok a => (m.1 ++ (f a).1, (f a).2)
  | Raise e => (m.1, Raise e)
  end.

Definition emit (ev : event) : io unit := ([ev], Ok tt).
Definition lift {A} (r : result A) : io A := ([], r).

Section Builder.
Variables (nvt_run : Universe) (li_atom_id : Z) (run_start run_end : nat).

(** Lines 31-32. *)
Definition add_atom (dist_values : dist_dict) (atom_id : Z) : dist_dict :=
  match dict_get dist_values (KStr atom_id) with
  | Some _ => dist_values
  | None => dist_values ++ [(KStr atom_id, replicate (run_end - run_start) sentinel)]
  end.

(** Lines 25-33: the frame scan. *)
Fixpoint scan_frames (sel : selection) (frames : list nat)
    (dist_values : dist_dict) : io dist_dict :=
  match frames with
  | [] => mret dist_values
  | ts :: frames' =>
      _ ← emit (EvSelect ts sel);
      let shell := select_atoms nvt_run ts sel in
      scan_frames sel frames' (foldl add_atom dist_values shell)
  end.

(** Lines 36-38: every known key gets its distance at [time_count]. *)
Fixpoint fill_frame (ts time_count : nat) (entries : dist_dict) : io dist_dict :=
  match entries with
  | [] => mret []
  | (atomid, s) :: entries' =>
      let i := li_atom_id - 1 in
      let j := py_int atomid - 1 in
      _ ← emit (EvDistance ts i j);
      s' ← lift (setitem s time_count (distance_array nvt_run ts i j));
      entries'' ← fill_frame ts time_count entries';
      mret ((atomid, s') :: entries'')
  end.

(** Lines 34-39: the distance fill. *)
Fixpoint fill_frames (frames : list nat) (time_count : nat)
    (dist_values : dist_dict) : io dist_dict :=
  match frames with
  | [] => mret dist_values
  | ts :: frames' =>
      dist_values' ← fill_frame ts time_count dist_values;
      fill_frames frames' (S time_count) dist_values'
  end.

(** [trajectory]: the events in order and the returned value, [None] for
    Python's [None]. *)
Definition trajectory (species : string) (selection_dict : gmap string string)
    (distance : Q) : io (option dist_dict) :=
  let trj_analysis := slice_frames nvt_run run_start run_end in
  match selection_dict !! species with
  | None => _ ← emit (EvPrint "Invalid species selection"); mret None
  | Some expr =>
      let sel := Selection expr distance (li_atom_id - 1) in
      dist_values ← scan_frames sel trj_analysis [];
      dist_values ← fill_frames trj_analysis 0 dist_values;
      mret (Some dist_values)
  end.
End Builder.

(** ** The solvation structure of one atom
    ([num_of_neighbor_one_li_simple], lines 412-456) *)

(** An operand of a string concatenation: [None] cannot be concatenated. *)
Definition py_concat_operand (v : option string) : result string :=
  match v with
  | Some s => Ok s
  | None => Raise TypeError
  end.

Section NeighborSimple.
Variables (nvt_run : Universe) (li_atom_id : Z).
Variables (select_dict : gmap string string).

(** Lines 423-453: the value written for one frame.  The selection
    ["(" + cation + " and around " + str(cutoff) + " index " + str(i) + ")"]
    is the conjunction of the same three parts as the selection of the
    builder. *)
Definition simple_frame (expr : string) (cutoff : Q) (ts time_count : nat)
    (cn_values : list Z) : io (list Z) :=
  let selection := Selection expr cutoff (li_atom_id - 1) in
  _ ← emit (EvSelect ts selection);
  let shell := select_atoms nvt_run ts selection in
  let shell_len := length shell in
  if bool_decide (shell_len = 0%nat) then lift (setitem cn_values time_count 1)
  else if bool_decide (shell_len = 1%nat) then
    cation ← lift (py_concat_operand (select_dict !! "cation"));
    atom0 ← lift (subscript shell 0);
    let selection_species := Selection cation cutoff (atom0 - 1) in
    _ ← emit (EvSelect ts selection_species);
    let shell_species := select_atoms nvt_run ts selection_species in
    let shell_species_len := Z.of_nat (length shell_species) - 1 in
    if bool_decide (shell_species_len = 0) then lift (setitem cn_values time_count 2)
    else lift (setitem cn_values time_count 3)
  else lift (setitem cn_values time_count 3).

(** Lines 422-454. *)
Fixpoint simple_frames (expr : string) (cutoff : Q) (frames : list nat)
    (time_count : nat) (cn_values : list Z) : io (list Z) :=
  match frames with
  | [] => mret cn_values
  | ts :: frames' =>
      cn_values' ← simple_frame expr cutoff ts time_count cn_values;
      simple_frames expr cutoff frames' (S time_count) cn_values'
  end.

(** [num_of_neighbor_one_li_simple]: [species_dict] in insertion order, its
    first key the species; the returned dictionary has the one key
    ["total"]. *)
Definition num_of_neighbor_one_li_simple (species_dict : list (string * Q))
    (run_start run_end : nat) : io (option (gmap string (list Z))) :=
  let trj_analysis := slice_frames nvt_run run_start run_end in
  first ← lift (subscript species_dict 0);
  let species := first.1 in
  match select_dict !! species with
  | Some expr =>
      let cn_values := replicate (length trj_analysis) 0 in
      cn_values ← simple_frames expr first.2 trj_analysis 0 cn_values;
      mret (Some {["total" := cn_values]})
  | None => _ ← emit (EvPrint "Invalid species selection"); mret None
  end.
End NeighborSimple.

(** ** Concrete inputs *)

Definition qs (l : list Z) : list Q := inject_Z <$> l.

Definition no_smoothing (x : list Q) (_ _ : Z) : result (list Q) := Ok x.

(** * Specifications *)

(** The vocabulary of the properties: invariants of the loops, the
    statements of the spec that the code does not satisfy, and the inputs
    that show it. *)

(** A strictly increasing list of frame indices. *)
Definition increasing (l : list nat) : Prop := StronglySorted lt l.

(** The invariant of the extractor's loop before frame [i]: a counter
    below [cool] means the event it counts from is still the last of its
    list. *)
Record hop_inv (cool : Z) (i : nat) (st : hop_state) : Prop := {
  inv_out : last st = 0 → out_cool st < cool → steps_out st ≠ [];
  inv_in : last st ≠ 0 → in_cool st < cool → steps_in st ≠ [];
  inv_in_lt : Forall (λ j, j < i)%nat (steps_in st);
  inv_out_lt : Forall (λ j, j < i)%nat (steps_out st);
  inv_in_inc : increasing (steps_in st);
  inv_out_inc : increasing (steps_out st)
}.

(** A hop-in is a nonzero site after the site [0]. *)
Definition hop_in (last s : Z) : bool := bool_decide (last = 0) && bool_decide (s ≠ 0).

(** A hop-out is the site [0] after a nonzero site. *)
Definition hop_out (last s : Z) : bool := bool_decide (last ≠ 0) && bool_decide (s = 0).

(** The frames, counted from [i], whose site and the site before satisfy [f]. *)
Fixpoint events_from (f : Z → Z → bool) (last : Z) (i : nat) (sites : list Z)
    : list nat :=
  match sites with
  | [] => []
  | s :: sites' => (if f last s then [i] else []) ++ events_from f s (S i) sites'
  end.


(** Every series of the dictionary has [T] frames. *)
Definition uniform (T : nat) (trj : dist_dict) : Prop :=
  Forall (λ e, length e.2 = T) trj.

(** [k] is a key of least distance [d] at frame [t]. *)
Definition is_min_at (trj : dist_dict) (t : nat) (k : key) (d : Q) : Prop :=
  k ∈ keys trj ∧ get_at trj k t = Ok d
  ∧ ∀ k' d', k' ∈ keys trj → get_at trj k' t = Ok d' → (d <= d')%Q.

(** The site and distance one iteration of the loop leaves at frame [time],
    from the site [prev] at the frame before. *)
Definition next_site (trj : dist_dict) (distance hopping_cutoff : Q)
    (prev : key) (time : nat) : result (key * Q) :=
  old_site_distance ←
    (if py_eq_zero prev then Ok sentinel else get_at trj prev time);
  if Qgt_bool old_site_distance hopping_cutoff then
    new_site ← py_min trj time;
    new_site_distance ← get_at trj new_site time;
    if Qgt_bool new_site_distance distance then Ok (KInt 0, sentinel)
    else Ok (new_site, new_site_distance)
  else Ok (prev, old_site_distance).

(** The loop invariant before frame [t]: frames from [t] on still hold the
    initial site [0]; a frame before [t] holds [0] or a key; frame 0 holds
    the minimum of frame 0; a frame [1 <= j < t] holds what [next_site]
    gives from frame [j - 1]. *)
Record machine_inv (trj : dist_dict) (distance hopping_cutoff : Q) (T t : nat)
    (st : list key * list Q) : Prop := {
  mi_len_sites : length st.1 = T;
  mi_len_dist : length st.2 = T;
  mi_untouched : ∀ j, (t ≤ j < T)%nat → st.1 !! j = Some (KInt 0);
  mi_site : ∀ j k, st.1 !! j = Some k → k = KInt 0 ∨ k ∈ keys trj;
  mi_first : ∃ k0 d0, st.1 !! 0%nat = Some k0 ∧ st.2 !! 0%nat = Some d0
                      ∧ py_min trj 0 = Ok k0 ∧ get_at trj k0 0 = Ok d0;
  mi_trans : ∀ j, (1 ≤ j < t)%nat →
             ∃ p c d, st.1 !! (j - 1)%nat = Some p ∧ st.1 !! j = Some c
                      ∧ st.2 !! j = Some d
                      ∧ next_site trj distance hopping_cutoff p j = Ok (c, d)
}.

(** The sites that are [0] carry the sentinel: an invariant of the loop
    that needs no assumption on the series. *)
Definition unbound_inv (trj : dist_dict) (st : list key * list Q) : Prop :=
  length st.1 = length st.2
  ∧ ∀ j k, st.1 !! j = Some k →
           k ∈ keys trj ∨ (k = KInt 0 ∧ st.2 !! j = Some sentinel).


(** The distance the fill pass stores for key [k] at frame [ts]. *)
Definition filled (nvt_run : Universe) (li_atom_id : Z) (ts : nat) (k : key) : Q :=
  distance_array nvt_run ts (li_atom_id - 1) (py_int k - 1).

(** C2 as the spec states it: in the returned dictionary the value of a key
    at a frame of the window where its atom was not selected within the
    capture radius is the sentinel. *)
Definition sentinel_survives_claim (nvt_run : Universe) (li_atom_id : Z)
    (run_start run_end : nat) (species : string)
    (selection_dict : gmap string string) (distance : Q) : Prop :=
  ∀ expr dv k s time_count ts,
    selection_dict !! species = Some expr →
    (trajectory nvt_run li_atom_id run_start run_end species selection_dict distance).2
    = Ok (Some dv) →
    (k, s) ∈ dv →
    slice_frames nvt_run run_start run_end !! time_count = Some ts →
    py_int k ∉ select_atoms nvt_run ts (Selection expr distance (li_atom_id - 1)) →
    s !! time_count = Some sentinel.

(** A universe of two frames: atom 5 is at distance 2 of every atom in
    frame 0 and at distance 7 in frame 1; a selection holds atom 5 when it
    is within the radius. *)
Definition two_frames : Universe :=
  let dist (ts : nat) (i j : Z) : Q := if decide (ts = 0%nat) then 2%Q else 7%Q in
  {| n_frames := 2;
     select_atoms := λ ts sel,
       filter (λ a, Qle_bool (dist ts (sel_index sel) (a - 1)) (sel_around sel) = true) [5];
     distance_array := dist |}.

(** Between frames [a] and [b] every nonzero site is [s]. *)
Definition same_episode (arr : list (Z * Q)) (s : Z) (a b : nat) : Prop :=
  ∀ m r, (a `min` b ≤ m ≤ a `max` b)%nat → arr !! m = Some r → r.1 = 0 ∨ r.1 = s.

(** Frame [c] stands for frame [j]: the same site, in the same episode, at
    a distance that is not larger. *)
Definition covers (arr : list (Z * Q)) (c j : nat) : Prop :=
  ∃ s d dc, arr !! j = Some (s, d) ∧ arr !! c = Some (s, dc) ∧ (dc <= d)%Q
            ∧ same_episode arr s c j.

(** The invariant of the reducer's loop before frame [i]; the open episode
    starts at frame [e]. *)
Record steps_inv (arr : list (Z * Q)) (i : nat) (st : list nat * nat * Z)
    (e : nat) : Prop := {
  si_pos : (st.1.2 < i ∧ e < i)%nat
           ∨ (i = 0%nat ∧ st.1.2 = 0%nat ∧ e = 0%nat
              ∧ ∃ d, arr !! 0%nat = Some (st.2, d));
  si_start : st.2 ≠ 0 → ∃ d, arr !! e = Some (st.2, d);
  si_open : ∀ j s d, (e ≤ j < i)%nat → arr !! j = Some (s, d) → s ≠ 0 →
            s = st.2 ∧ (e ≤ st.1.2)%nat
            ∧ ∃ dc, arr !! st.1.2 = Some (st.2, dc) ∧ (dc <= d)%Q;
  si_closed : ∀ j s d, (j < e)%nat → arr !! j = Some (s, d) → s ≠ 0 →
              ∃ c, c ∈ st.1.1 ∧ covers arr c j;
  si_below : Forall (λ c, c < st.1.2)%nat st.1.1;
  si_inc : increasing st.1.1;
  si_bound : ∀ s0 d0, arr !! 0%nat = Some (s0, d0) → s0 ≠ 0 →
             st.2 ≠ 0 ∧ ∀ c, c ∈ st.1.1 → ∃ r, arr !! c = Some r ∧ r.1 ≠ 0
}.

(** What the extractor's lists keep of the transitions [e_in] and [e_out]
    met so far: they are sublists of them, and the transition met last is
    still the last entry of its list. *)
Record hop_kept (st : hop_state) (e_in e_out : list nat) : Prop := {
  hk_in_sub : steps_in st `sublist_of` e_in;
  hk_out_sub : steps_out st `sublist_of` e_out;
  hk_in_last : last st ≠ 0 → ∀ e x, e_in = e ++ [x] → ∃ l, steps_in st = l ++ [x];
  hk_out_last : last st = 0 → ∀ e x, e_out = e ++ [x] → ∃ l, steps_out st = l ++ [x]
}.

(** Every series is still the array of [N] sentinels. *)
Definition fresh (N : nat) (dv : dist_dict) : Prop :=
  Forall (λ e, e.2 = replicate N sentinel) dv.

(** The distance events of one frame, one for each key. *)
Definition distance_events (li_atom_id : Z) (ts : nat) (dv : dist_dict) : list event :=
  (λ k, EvDistance ts (li_atom_id - 1) (py_int k - 1)) <$> keys dv.

(** The three solvation structures of a frame: no atom of the species
    around the reference atom (1); one atom, around which the selection of
    cations holds exactly one atom (2); anything else (3). *)
Definition structure_of (nvt_run : Universe) (li_atom_id : Z) (expr cation : string)
    (cutoff : Q) (ts : nat) (v : Z) : Prop :=
  let shell := select_atoms nvt_run ts (Selection expr cutoff (li_atom_id - 1)) in
  (v = 1 ∨ v = 2 ∨ v = 3)
  ∧ (v = 1 ↔ shell = [])
  ∧ (v = 2 ↔ ∃ a, shell = [a]
                  ∧ length (select_atoms nvt_run ts (Selection cation cutoff (a - 1)))
                    = 1%nat).

(** A universe of three frames around atom 1: atom 5 is selected in frame
    1 only, and the only selected cation around atom 5 is one atom. *)
Definition three_frames : Universe :=
  {| n_frames := 3;
     select_atoms := λ ts sel,
       if decide (sel_index sel = 0) then (if decide (ts = 1%nat) then [5] else [])
       else [1];
     distance_array := λ _ _ _, 1%Q |}.

(** * Properties *)

(** ** Runs on concrete inputs *)

Example find_nearest_round_trip :
  find_nearest no_smoothing
    [(KStr 7, qs [1;1;6;6;1;1]); (KStr 9, qs [5;5;1;1;5;5])] (1#2) (2#1) (4#1) 51
  = Ok ([7;7;9;9;7;7], ((2 # 1) / ((6 # 1) * (1#2)))%Q, [0;2;4]%nat).
Proof. vm_compute. reflexivity. Qed.

Example hop_events_cooldown :
  hop_events 3 [7;0;7;0;0;0;9] = Ok ([6], [3])%nat.
Proof. vm_compute. reflexivity. Qed.

(** Without a candidate, or without a frame 0, the state machine raises. *)
Example assign_sites_no_candidate : assign_sites [] 2 4 = Raise IndexError.
Proof. reflexivity. Qed.

Example assign_sites_no_frame : assign_sites [(KStr 7, [])] 2 4 = Raise IndexError.
Proof. reflexivity. Qed.

(** A key that is [0] as an integer is not told from the unbound site. *)
Example assign_sites_key_zero : assign_sites [(KStr 0, qs [5])] 2 4 = Ok ([0], qs [5]).
Proof. reflexivity. Qed.

(** ** The result monad *)

Lemma bind_Ok {A B} (m : result A) (f : A → result B) (b : B) :
  m ≫= f = Ok b → ∃ a, m = Ok a ∧ f a = Ok b.
Proof. destruct m as [a|e]; simpl; [eauto | discriminate]. Qed.

Lemma bind_Ok_l {A B} (a : A) (f : A → result B) : Ok a ≫= f = f a.
Proof. done. Qed.

Lemma subscript_Ok {A} (l : list A) (i : nat) (a : A) :
  subscript l i = Ok a ↔ l !! i = Some a.
Proof.
  unfold subscript. destruct (l !! i); split; intros H; inversion H; done.
Qed.

Lemma setitem_Ok {A} (l : list A) (i : nat) (x : A) :
  (i < length l)%nat → setitem l i x = Ok (<[i:=x]> l).
Proof. intros. unfold setitem. by rewrite decide_True. Qed.

Lemma setitem_inv {A} (l l' : list A) (i : nat) (x : A) :
  setitem l i x = Ok l' → (i < length l)%nat ∧ l' = <[i:=x]> l.
Proof. unfold setitem. case_decide; intros Heq; inversion Heq; done. Qed.

(** ** The hop event extractor *)

Lemma increasing_snoc (l : list nat) (i : nat) :
  increasing l → Forall (λ j, j < i)%nat l → increasing (l ++ [i]).
Proof.
  intros Hl Hi. apply StronglySorted_app. split_and!.
  - intros x y Hx Hy. apply list_elem_of_singleton in Hy as ->.
    by eapply Forall_forall in Hi.
  - done.
  - repeat constructor.
Qed.

Lemma pop_snoc (l : list nat) (x : nat) : pop (l ++ [x]) = Ok l.
Proof.
  unfold pop. rewrite removelast_last. by destruct l.
Qed.

Lemma pop_nonempty (l : list nat) :
  l ≠ [] → ∃ l' x, l = l' ++ [x] ∧ pop l = Ok l'.
Proof.
  destruct l as [|y l _] using rev_ind; [done|].
  intros _. exists l, y. by rewrite pop_snoc.
Qed.

Lemma Forall_lt_S (l : list nat) (i : nat) :
  Forall (λ j, j < i)%nat l → Forall (λ j, j < S i)%nat l.
Proof. intros H. eapply Forall_impl; [exact H|]. simpl; intros; lia. Qed.

Lemma pop_keeps (l l' : list nat) (i : nat) :
  pop l = Ok l' → Forall (λ j, j < i)%nat l → increasing l →
  Forall (λ j, j < i)%nat l' ∧ increasing l'.
Proof.
  destruct l as [|y l _] using rev_ind; [discriminate|].
  rewrite pop_snoc. intros [= ->] Hlt Hinc.
  apply Forall_app in Hlt as [? _].
  apply StronglySorted_app_1_l in Hinc. done.
Qed.

Lemma hop_step_inv (cool : Z) (i : nat) (s : Z) (st : hop_state) :
  hop_inv cool i st →
  ∃ st', hop_step cool st i s = Ok st' ∧ hop_inv cool (S i) st' ∧ last st' = s.
Proof.
  intros [Hout Hin Hilt Holt Hiinc Hoinc]. unfold hop_step.
  destruct st as [l si so ic oc]; simpl in *.
  case_bool_decide as Hls; simpl.
  { eexists; split; [done|]. split; [|done].
    constructor; simpl; intros; subst;
      auto using Forall_lt_S with lia. }
  case_bool_decide as Hl0; simpl.
  { assert (∃ so', (if bool_decide (oc < cool) then pop so else Ok so) = Ok so'
                   ∧ Forall (λ j, j < i)%nat so' ∧ increasing so')
      as (so' & -> & Hso' & Hso'inc).
    { case_bool_decide as Hc; [|eauto].
      destruct (pop_nonempty so) as (so' & x & -> & Hpop); [auto|].
      exists so'. split; [done|]. by eapply pop_keeps. }
    simpl. eexists; split; [done|]. split; [|done].
    constructor; simpl; intros; try lia.
    - by destruct si.
    - apply Forall_app. split; [by apply Forall_lt_S|]. repeat constructor.
    - by apply Forall_lt_S.
    - by apply increasing_snoc.
    - done. }
  case_bool_decide as Hs0; simpl.
  { assert (∃ si', (if bool_decide (ic < cool) then pop si else Ok si) = Ok si'
                   ∧ Forall (λ j, j < i)%nat si' ∧ increasing si')
      as (si' & -> & Hsi' & Hsi'inc).
    { case_bool_decide as Hc; [|eauto].
      destruct (pop_nonempty si) as (si' & x & -> & Hpop); [auto|].
      exists si'. split; [done|]. by eapply pop_keeps. }
    simpl. eexists; split; [done|]. split; [|done].
    constructor; simpl; intros; try lia.
    - by destruct so.
    - by apply Forall_lt_S.
    - apply Forall_app. split; [by apply Forall_lt_S|]. repeat constructor.
    - done.
    - by apply increasing_snoc. }
  eexists; split; [done|]. split; [|done].
  constructor; simpl; intros; try lia; auto using Forall_lt_S with lia.
Qed.

Lemma hop_loop_inv (cool : Z) (sites : list Z) :
  ∀ (i : nat) (st : hop_state),
    hop_inv cool i st →
    ∃ st', hop_loop cool i sites st = Ok st'
           ∧ hop_inv cool (i + length sites) st'.
Proof.
  induction sites as [|s sites IH]; intros i st Hinv; simpl.
  - exists st. by rewrite Nat.add_0_r.
  - destruct (hop_step_inv cool i s st Hinv) as (st1 & -> & Hinv1 & _). simpl.
    destruct (IH (S i) st1 Hinv1) as (st' & -> & Hinv').
    exists st'. split; [done|]. by replace (i + S (length sites))%nat
      with (S i + length sites)%nat by lia.
Qed.

Lemma hop_inv_init (cool last0 : Z) : hop_inv cool 0 (HopState last0 [] [] cool cool).
Proof. constructor; simpl; intros; try lia; constructor. Qed.

(** C10: on every site list with a frame 0 the extractor returns, so no
    [pop] meets an empty list; before every frame the list a cancellation
    at that frame would pop is non-empty; and both returned lists are
    strictly increasing. *)
Theorem hop_events_pops_never_fail (cool : Z) (sites : list Z) :
  sites ≠ [] →
  (∃ ins outs, hop_events cool sites = Ok (ins, outs)
               ∧ increasing ins ∧ increasing outs)
  ∧ (∀ pre s post last0, sites = pre ++ s :: post → sites !! 0%nat = Some last0 →
       ∃ st, hop_loop cool 0 pre (HopState last0 [] [] cool cool) = Ok st
             ∧ (last st ≠ s → last st = 0 → out_cool st < cool → steps_out st ≠ [])
             ∧ (last st ≠ s → last st ≠ 0 → s = 0 → in_cool st < cool
                → steps_in st ≠ [])).
Proof.
  intros Hne. split.
  - destruct sites as [|s0 sites]; [done|].
    unfold hop_events. change (subscript (s0 :: sites) 0) with (Ok s0).
    rewrite bind_Ok_l.
    destruct (hop_loop_inv cool (s0 :: sites) 0 _ (hop_inv_init cool s0))
      as (st & Hloop & Hinv).
    rewrite Hloop, bind_Ok_l. exists (steps_in st), (steps_out st).
    split; [done|]. split; [apply Hinv.(inv_in_inc _ _ _) | apply Hinv.(inv_out_inc _ _ _)].
  - intros pre s post last0 _ _.
    destruct (hop_loop_inv cool pre 0 _ (hop_inv_init cool last0))
      as (st & Hloop & Hinv).
    exists st. split; [done|]. split.
    + intros _. apply Hinv.(inv_out _ _ _).
    + intros _ Hl _. by apply Hinv.(inv_in _ _ _).
Qed.

Lemma hop_events_pops_never_fail_witness :
  ∃ ins outs, hop_events 3 [7; 0; 7; 0; 0; 0; 9] = Ok (ins, outs)
              ∧ increasing ins ∧ increasing outs.
Proof.
  apply (hop_events_pops_never_fail 3 [7; 0; 7; 0; 0; 0; 9]). discriminate.
Defined.

(** C5: on [[A,0,A,0,0,0,B]] with [cool = 3] the extractor returns the
    hop-in list [[6]] and the hop-out list [[3]]: index 1 is not a hop-out,
    index 2 is not a hop-in, and index 6 is a hop-in. *)
Theorem hop_events_cooldown_scenario (a b : Z) :
  a ≠ 0 → b ≠ 0 → a ≠ b →
  ∃ ins outs, hop_events 3 [a; 0; a; 0; 0; 0; b] = Ok (ins, outs)
              ∧ ins = [6%nat] ∧ outs = [3%nat]
              ∧ (1%nat ∉ outs) ∧ (2%nat ∉ ins) ∧ 6%nat ∈ ins.
Proof.
  intros Ha Hb _. exists [6%nat], [3%nat].
  split_and!; try done.
  - unfold hop_events, hop_loop, hop_step; simpl.
    repeat (case_bool_decide; try lia; simpl). done.
  - by intros ?%list_elem_of_singleton.
  - by intros ?%list_elem_of_singleton.
  - by apply list_elem_of_singleton.
Qed.

Lemma hop_events_cooldown_scenario_witness :
  ∃ ins outs, hop_events 3 [7; 0; 7; 0; 0; 0; 9] = Ok (ins, outs)
              ∧ ins = [6%nat] ∧ outs = [3%nat]
              ∧ (1%nat ∉ outs) ∧ (2%nat ∉ ins) ∧ 6%nat ∈ ins.
Proof. apply (hop_events_cooldown_scenario 7 9); lia. Defined.

(** *** No cooldown *)

Lemma elem_of_events_from (f : Z → Z → bool) (sites : list Z) :
  ∀ (last : Z) (i j : nat),
    j ∈ events_from f last i sites ↔
      (j = i ∧ ∃ s, sites !! 0%nat = Some s ∧ f last s = true)
      ∨ (∃ n p s, j = (i + S n)%nat ∧ sites !! n = Some p
                  ∧ sites !! S n = Some s ∧ f p s = true).
Proof.
  induction sites as [|s sites IH]; intros last i j; simpl.
  - split; [by intros ?%elem_of_nil|].
    intros [(_ & ? & ? & _)|(? & ? & ? & _ & ? & _)]; done.
  - rewrite elem_of_app, IH. split.
    + intros [Hj|[(-> & s' & Hs' & Hf)|(n & p & s' & -> & Hp & Hs' & Hf)]].
      * destruct (f last s) eqn:Hf; [|by apply elem_of_nil in Hj].
        apply list_elem_of_singleton in Hj as ->. left. eauto.
      * right. exists 0%nat, s, s'. split_and!; try done. lia.
      * right. exists (S n), p, s'. split_and!; try done. lia.
    + intros [(-> & s' & [= <-] & Hf)|(n & p & s' & -> & Hp & Hs' & Hf)].
      * left. rewrite Hf. by apply list_elem_of_singleton.
      * right. destruct n as [|n]; simpl in *.
        -- injection Hp as ->. left. split; [lia|]. eauto.
        -- right. exists n, p, s'. split_and!; done || lia.
Qed.

Lemma hop_loop_no_cooldown (sites : list Z) :
  ∀ (i : nat) (st : hop_state),
    0 ≤ in_cool st → 0 ≤ out_cool st →
    ∃ st', hop_loop 0 i sites st = Ok st'
           ∧ steps_in st' = steps_in st ++ events_from hop_in (last st) i sites
           ∧ steps_out st' = steps_out st ++ events_from hop_out (last st) i sites.
Proof.
  induction sites as [|s sites IH]; intros i st Hic Hoc; simpl.
  - exists st. by rewrite !app_nil_r.
  - assert (∃ st1, hop_step 0 st i s = Ok st1 ∧ last st1 = s
              ∧ 0 ≤ in_cool st1 ∧ 0 ≤ out_cool st1
              ∧ steps_in st1 = steps_in st ++ (if hop_in (last st) s then [i] else [])
              ∧ steps_out st1 = steps_out st ++ (if hop_out (last st) s then [i] else []))
      as (st1 & -> & Hl & Hic1 & Hoc1 & Hin & Hout).
    { unfold hop_step, hop_in, hop_out. destruct st as [l si so ic oc]; simpl in *.
      repeat (case_bool_decide; simpl; try lia);
        eexists; (split; [done|]); simpl; rewrite ?app_nil_r;
        split_and!; done || lia. }
    rewrite bind_Ok_l. destruct (IH (S i) st1 Hic1 Hoc1) as (st' & -> & Hin' & Hout').
    exists st'. rewrite Hin', Hout', Hin, Hout, Hl, <- !app_assoc. done.
Qed.

(** C7: with [cool = 0] the extractor returns, its hop-in list holds
    exactly the frames whose site is nonzero after a frame of site [0], and
    its hop-out list exactly the frames of site [0] after a nonzero site:
    no recorded event is removed. *)
Theorem hop_events_no_cooldown (sites : list Z) :
  sites ≠ [] →
  ∃ ins outs,
    hop_events 0 sites = Ok (ins, outs)
    ∧ (∀ j, j ∈ ins ↔ ∃ t s, j = S t ∧ sites !! t = Some 0
                              ∧ sites !! S t = Some s ∧ s ≠ 0)
    ∧ (∀ j, j ∈ outs ↔ ∃ t p, j = S t ∧ sites !! t = Some p ∧ p ≠ 0
                               ∧ sites !! S t = Some 0).
Proof.
  intros Hne. destruct sites as [|s0 sites]; [done|].
  unfold hop_events. change (subscript (s0 :: sites) 0) with (Ok s0).
  rewrite bind_Ok_l.
  destruct (hop_loop_no_cooldown (s0 :: sites) 0 (HopState s0 [] [] 0 0))
    as (st & -> & Hin & Hout); [simpl; lia..|].
  rewrite bind_Ok_l. exists (steps_in st), (steps_out st).
  split; [done|]. rewrite Hin, Hout. cbn [steps_in steps_out last app].
  split; intros j.
  - rewrite elem_of_events_from. unfold hop_in. split.
    + intros [(_ & s & [= <-] & Hf)|(n & p & s & -> & Hp & Hs & Hf)].
      * apply andb_true_iff in Hf as [?%bool_decide_eq_true ?%bool_decide_eq_true]. done.
      * apply andb_true_iff in Hf as [->%bool_decide_eq_true ?%bool_decide_eq_true].
        exists n, s. done.
    + intros (t & s & -> & Hp & Hs & Hnz). right. exists t, 0, s.
      split_and!; try done. rewrite andb_true_iff, !bool_decide_eq_true. done.
  - rewrite elem_of_events_from. unfold hop_out. split.
    + intros [(_ & s & [= <-] & Hf)|(n & p & s & -> & Hp & Hs & Hf)].
      * apply andb_true_iff in Hf as [?%bool_decide_eq_true ?%bool_decide_eq_true]. done.
      * apply andb_true_iff in Hf as [?%bool_decide_eq_true ->%bool_decide_eq_true].
        exists n, p. done.
    + intros (t & p & -> & Hp & Hnz & Hs). right. exists t, p, 0.
      split_and!; try done. rewrite andb_true_iff, !bool_decide_eq_true. done.
Qed.

Lemma hop_events_no_cooldown_witness :
  ∃ ins outs,
    hop_events 0 [7; 0; 7] = Ok (ins, outs)
    ∧ (∀ j, j ∈ ins ↔ ∃ t s, j = S t ∧ [7; 0; 7] !! t = Some 0
                              ∧ [7; 0; 7] !! S t = Some s ∧ s ≠ 0)
    ∧ (∀ j, j ∈ outs ↔ ∃ t p, j = S t ∧ [7; 0; 7] !! t = Some p ∧ p ≠ 0
                               ∧ [7; 0; 7] !! S t = Some 0).
Proof. apply (hop_events_no_cooldown [7; 0; 7]). discriminate. Defined.

(** ** The round trip of two candidates *)

Lemma py_eq_zero_false (k : key) : py_int k ≠ 0 → py_eq_zero k = false.
Proof. destruct k; simpl; [|done]. intros. by apply bool_decide_eq_false. Qed.

(** C1: on [{A: [1,1,6,6,1,1], B: [5,5,1,1,5,5]}] with binding threshold 2,
    hysteresis threshold 4 and no smoothing, the state machine assigns
    [[A,A,B,B,A,A]], the reducer counts 2 hops, and [find_nearest] returns
    the frequency [2 / (6 * time_step)]. *)
Theorem round_trip_scenario (a b : key) (time_step : Q) (smooth : Z) :
  py_int a ≠ 0 → py_int b ≠ 0 → py_int a ≠ py_int b → ¬ (time_step == 0)%Q →
  let trj := [(a, qs [1; 1; 6; 6; 1; 1]); (b, qs [5; 5; 1; 1; 5; 5])] in
  let sites := [py_int a; py_int a; py_int b; py_int b; py_int a; py_int a] in
  (∃ site_distance, assign_sites trj 2 4 = Ok (sites, site_distance))
  ∧ hop_count sites = 2
  ∧ ∃ steps, find_nearest no_smoothing trj time_step 2 4 smooth
             = Ok (sites, (2 / (6 * time_step))%Q, steps).
Proof.
  intros Ha Hb Hab _ trj sites.
  assert (a ≠ b) as Hne by congruence.
  assert (∀ t, get_at trj a t = subscript (qs [1; 1; 6; 6; 1; 1]) t) as Hga.
  { intros t. unfold get_at, trj. simpl. by rewrite decide_True. }
  assert (∀ t, get_at trj b t = subscript (qs [5; 5; 1; 1; 5; 5]) t) as Hgb.
  { intros t. unfold get_at, trj. simpl. rewrite decide_False, decide_True; done. }
  assert (∀ t, py_min trj t
               = v1 ← subscript (qs [1; 1; 6; 6; 1; 1]) t;
                 v2 ← subscript (qs [5; 5; 1; 1; 5; 5]) t;
                 if Qlt_bool v2 v1 then Ok b else Ok a) as Hmin.
  { intros t. unfold py_min. change (keys trj) with [a; b]. simpl.
    rewrite Hga, Hgb.
    destruct (subscript _ t); simpl; [|done]. destruct (subscript _ t); simpl; [|done].
    by destruct (Qlt_bool _ _). }
  pose proof (py_eq_zero_false a Ha) as Hza.
  pose proof (py_eq_zero_false b Hb) as Hzb.
  assert (assign_raw trj 2 4 6 = Ok ([a; a; b; b; a; a], qs [1; 1; 1; 1; 1; 1])) as Hraw.
  { unfold assign_raw. rewrite Hmin. simpl. rewrite Hga. simpl.
    unfold assign_step. simpl.
    repeat (progress (rewrite ?Hza, ?Hzb, ?Hga, ?Hgb, ?Hmin; simpl)). done. }
  assert (hop_count sites = 2) as Hcount.
  { unfold hop_count, nonzero_sites, sites. rewrite !filter_cons_True by done. simpl.
    repeat (case_bool_decide; try lia). }
  split_and!.
  - eexists. unfold assign_sites. simpl. unfold site_machine. by rewrite Hraw.
  - done.
  - exists [0; 2; 4]%nat.
    unfold find_nearest. simpl time_span_of. rewrite bind_Ok_l.
    change (smooth_all no_smoothing trj smooth) with (Ok trj). rewrite bind_Ok_l.
    unfold site_machine. rewrite Hraw.
    change (py_int <$> [a; a; b; b; a; a]) with sites.
    unfold hop_frequency. rewrite Hcount.
    assert (closest_steps sites (qs [1; 1; 1; 1; 1; 1]) = Ok [0; 2; 4]%nat) as ->.
    { unfold closest_steps, steps_step. simpl.
      repeat (case_bool_decide; try lia; simpl). done. }
    done.
Qed.

Lemma round_trip_scenario_witness :
  let trj := [(KStr 7, qs [1; 1; 6; 6; 1; 1]); (KStr 9, qs [5; 5; 1; 1; 5; 5])] in
  let sites := [7; 7; 9; 9; 7; 7] in
  (∃ site_distance, assign_sites trj 2 4 = Ok (sites, site_distance))
  ∧ hop_count sites = 2
  ∧ ∃ steps, find_nearest no_smoothing trj (1 # 2) 2 4 51
             = Ok (sites, (2 / (6 * (1 # 2)))%Q, steps).
Proof.
  apply (round_trip_scenario (KStr 7) (KStr 9) (1 # 2) 51); simpl; try lia.
  intros H. discriminate H.
Defined.

(** ** The episode reducer *)





(** ** The state machine: lookups and the minimum *)

Lemma dict_get_Some (trj : dist_dict) (k : key) (s : list Q) :
  dict_get trj k = Some s → (k, s) ∈ trj.
Proof.
  induction trj as [|[k' s'] trj IH]; simpl; [done|].
  case_decide as Hk.
  - intros [= ->]. subst. left.
  - intros ?. right. auto.
Qed.

Lemma dict_get_key (trj : dist_dict) (k : key) :
  k ∈ keys trj → ∃ s, dict_get trj k = Some s.
Proof.
  unfold keys. induction trj as [|[k' s'] trj IH]; simpl.
  - by intros ?%elem_of_nil.
  - intros Hk. case_decide; [eauto|].
    apply elem_of_cons in Hk as [->|Hk]; [done|auto].
Qed.

Lemma get_at_key (T : nat) (trj : dist_dict) (k : key) (t : nat) :
  uniform T trj → k ∈ keys trj → (t < T)%nat → ∃ d, get_at trj k t = Ok d.
Proof.
  intros Hu Hk Ht. destruct (dict_get_key trj k Hk) as [s Hs].
  unfold get_at. rewrite Hs.
  apply dict_get_Some in Hs. eapply Forall_forall in Hu; [|done]. simpl in Hu.
  destruct (lookup_lt_is_Some_2 s t) as [d Hd]; [lia|].
  exists d. by apply subscript_Ok.
Qed.

Lemma Qlt_bool_true (x y : Q) : Qlt_bool x y = true ↔ (x < y)%Q.
Proof.
  unfold Qlt_bool. rewrite negb_true_iff, <- not_true_iff_false, Qle_bool_iff.
  split; [apply Qnot_le_lt | apply Qlt_not_le].
Qed.

Lemma Qlt_bool_false (x y : Q) : Qlt_bool x y = false ↔ (y <= x)%Q.
Proof. unfold Qlt_bool. by rewrite negb_false_iff, Qle_bool_iff. Qed.

Lemma Qgt_bool_true (x y : Q) : Qgt_bool x y = true ↔ (y < x)%Q.
Proof. apply Qlt_bool_true. Qed.

Lemma Qgt_bool_false (x y : Q) : Qgt_bool x y = false ↔ (x <= y)%Q.
Proof. apply Qlt_bool_false. Qed.

Lemma min_from_spec (trj : dist_dict) (t : nat) (ks : list key) :
  ∀ (best : key) (best_val : Q) (m : key),
    get_at trj best t = Ok best_val →
    min_from trj t best best_val ks = Ok m →
    ∃ d, get_at trj m t = Ok d ∧ (m = best ∨ m ∈ ks) ∧ (d <= best_val)%Q
         ∧ ∀ k' d', k' ∈ ks → get_at trj k' t = Ok d' → (d <= d')%Q.
Proof.
  induction ks as [|k ks IH]; intros best bv m Hbest; simpl.
  - intros [= <-]. exists bv. split_and!; [done|by left|apply Qle_refl|].
    by intros ?? ?%elem_of_nil.
  - intros (v & Hv & Hrest)%bind_Ok.
    destruct (Qlt_bool v bv) eqn:Hlt.
    + apply Qlt_bool_true in Hlt.
      destruct (IH k v m Hv Hrest) as (d & Hd & Hin & Hle & Hall).
      exists d. split_and!; [done| |by eapply Qle_trans, Qlt_le_weak|].
      { destruct Hin as [->|?]; right; [left|by right]. }
      intros k' d' [->|Hk']%elem_of_cons Hd'; [|eauto].
      rewrite Hv in Hd'. by injection Hd' as <-.
    + apply Qlt_bool_false in Hlt.
      destruct (IH best bv m Hbest Hrest) as (d & Hd & Hin & Hle & Hall).
      exists d. split_and!; [done| |done|].
      { destruct Hin as [->|?]; [by left|right; by right]. }
      intros k' d' [->|Hk']%elem_of_cons Hd'; [|eauto].
      rewrite Hv in Hd'. injection Hd' as <-. by eapply Qle_trans.
Qed.

Lemma py_min_spec (trj : dist_dict) (t : nat) (m : key) :
  py_min trj t = Ok m → ∃ d, is_min_at trj t m d.
Proof.
  unfold py_min, is_min_at, keys. destruct trj as [|[k s] trj]; [done|].
  cbn [fmap list_fmap fst]. intros (v & Hv & Hrest)%bind_Ok.
  destruct (min_from_spec _ _ _ _ _ _ Hv Hrest) as (d & Hd & Hin & Hle & Hall).
  exists d. split_and!; [|done|].
  - destruct Hin as [->|?]; [left|by right].
  - intros k' d' [->|Hk']%elem_of_cons Hd'; [|eauto].
    rewrite Hv in Hd'. by injection Hd' as <-.
Qed.

Lemma min_from_total (T : nat) (trj : dist_dict) (t : nat) (ks : list key) :
  uniform T trj → (t < T)%nat → ks ⊆ keys trj →
  ∀ (best : key) (best_val : Q), ∃ m, min_from trj t best best_val ks = Ok m.
Proof.
  intros Hu Ht. induction ks as [|k ks IH]; intros Hks best bv; simpl; [eauto|].
  destruct (get_at_key T trj k t) as [v ->]; [done|set_solver|done|].
  rewrite bind_Ok_l. destruct (Qlt_bool v bv); apply IH; set_solver.
Qed.

Lemma py_min_total (T : nat) (trj : dist_dict) (t : nat) :
  uniform T trj → trj ≠ [] → (t < T)%nat → ∃ m, py_min trj t = Ok m.
Proof.
  intros Hu Hne Ht. unfold py_min.
  destruct (keys trj) as [|k ks] eqn:Hkeys.
  { by destruct trj. }
  destruct (get_at_key T trj k t) as [v ->]; [done|rewrite Hkeys; left|done|].
  rewrite bind_Ok_l. eapply min_from_total; [done..|]. rewrite Hkeys. set_solver.
Qed.

(** ** The state machine: one transition *)

Section Machine.
Variables (trj : dist_dict) (distance hopping_cutoff : Q).

Lemma assign_step_next (sites : list key) (site_distance : list Q)
    (time : nat) (prev : key) :
  sites !! (time - 1)%nat = Some prev →
  sites !! time = Some (KInt 0) →
  (time < length site_distance)%nat →
  assign_step trj distance hopping_cutoff (sites, site_distance) time
  = r ← next_site trj distance hopping_cutoff prev time; Ok (<[time:=r.1]> sites, <[time:=r.2]> site_distance).
Proof.
  intros Hprev Hcur Hlen.
  assert (time < length sites)%nat as Hlen' by (by eapply lookup_lt_Some).
  unfold assign_step, next_site.
  apply subscript_Ok in Hprev as ->. rewrite bind_Ok_l.
  destruct (if py_eq_zero prev then _ else _) as [old|e]; [|done].
  rewrite !bind_Ok_l. destruct (Qgt_bool old hopping_cutoff).
  - destruct (py_min trj time) as [m|e]; [|done]. rewrite !bind_Ok_l.
    destruct (get_at trj m time) as [dm|e]; [|done]. rewrite !bind_Ok_l.
    destruct (Qgt_bool dm distance); rewrite !setitem_Ok by done; simpl.
    + by rewrite (list_insert_id sites time (KInt 0)).
    + done.
  - by rewrite !setitem_Ok.
Qed.

Lemma next_site_total (T : nat) (prev : key) (t : nat) :
  uniform T trj → trj ≠ [] → (t < T)%nat →
  prev = KInt 0 ∨ prev ∈ keys trj →
  ∃ c d, next_site trj distance hopping_cutoff prev t = Ok (c, d) ∧ (c = KInt 0 ∨ c ∈ keys trj).
Proof.
  intros Hu Hne Ht Hprev. unfold next_site.
  assert (∃ old, (if py_eq_zero prev then Ok sentinel else get_at trj prev t) = Ok old)
    as [old ->].
  { destruct (py_eq_zero prev) eqn:Hz; [eauto|].
    destruct Hprev as [->|Hk]; [done|]. by eapply get_at_key. }
  rewrite bind_Ok_l. destruct (Qgt_bool old hopping_cutoff); [|eauto].
  destruct (py_min_total T trj t) as [m Hm]; [done..|]. rewrite Hm, bind_Ok_l.
  destruct (py_min_spec _ _ _ Hm) as (dm & Hmk & -> & _). rewrite bind_Ok_l.
  destruct (Qgt_bool dm distance); eauto.
Qed.

Lemma assign_step_inv (T t : nat) (st : list key * list Q) :
  uniform T trj → trj ≠ [] → (1 ≤ t < T)%nat →
  machine_inv trj distance hopping_cutoff T t st →
  ∃ st', assign_step trj distance hopping_cutoff st t = Ok st'
         ∧ machine_inv trj distance hopping_cutoff T (S t) st'.
Proof.
  intros Hu Hne Ht [Hls Hld Hun Hsite (k0 & d0 & Hk0 & Hd0 & Hmin0 & Hget0) Htr].
  destruct st as [sites sd]; cbn [fst snd] in *.
  destruct (lookup_lt_is_Some_2 sites (t - 1)) as [prev Hprev]; [lia|].
  destruct (next_site_total T prev t) as (c & d & Hnext & Hc); [done..|lia|eauto|].
  rewrite (assign_step_next sites sd t prev), Hnext, bind_Ok_l; [|done|apply Hun; lia|lia].
  eexists. split; [done|]. simpl. constructor; simpl.
  - by rewrite length_insert.
  - by rewrite length_insert.
  - intros j Hj. rewrite list_lookup_insert_ne by lia. apply Hun. lia.
  - intros j k. destruct (decide (j = t)) as [->|Hjt].
    + rewrite list_lookup_insert_eq by lia. by intros [= <-].
    + rewrite list_lookup_insert_ne by done. apply Hsite.
  - exists k0, d0. rewrite !list_lookup_insert_ne by lia. done.
  - intros j Hj. destruct (decide (j = t)) as [->|Hjt].
    + exists prev, c, d. rewrite list_lookup_insert_ne by lia.
      rewrite !list_lookup_insert_eq by lia. done.
    + destruct (Htr j) as (p' & c' & d' & ? & ? & ? & ?); [lia|].
      exists p', c', d'. rewrite !list_lookup_insert_ne by lia. done.
Qed.

Lemma assign_loop_inv (T : nat) (n : nat) :
  uniform T trj → trj ≠ [] →
  ∀ (t : nat) (st : list key * list Q),
    (1 ≤ t)%nat → (t + n = T)%nat →
    machine_inv trj distance hopping_cutoff T t st →
    ∃ st', assign_loop trj distance hopping_cutoff (seq t n) st = Ok st'
           ∧ machine_inv trj distance hopping_cutoff T T st'.
Proof.
  intros Hu Hne. induction n as [|n IH]; intros t st Ht HT Hinv; simpl.
  - exists st. split; [done|]. assert (t = T) as Heq by lia. by rewrite Heq in Hinv.
  - destruct (assign_step_inv T t st) as (st1 & -> & Hinv1); [done..|lia|done|].
    rewrite bind_Ok_l. apply IH; [lia..|done].
Qed.

(** On a non-empty dictionary of series of [T >= 1] frames the machine
    returns, and its lists satisfy the invariant at [T]. *)
Lemma assign_raw_inv (T : nat) :
  uniform T trj → trj ≠ [] → (1 ≤ T)%nat →
  ∃ st, assign_raw trj distance hopping_cutoff T = Ok st ∧ machine_inv trj distance hopping_cutoff T T st.
Proof.
  intros Hu Hne HT. unfold assign_raw.
  destruct (py_min_total T trj 0) as [k0 Hmin]; [done..|lia|].
  destruct (py_min_spec _ _ _ Hmin) as (d0 & Hk0 & Hd0 & _).
  rewrite Hmin, bind_Ok_l, setitem_Ok, bind_Ok_l, Hd0, bind_Ok_l, setitem_Ok, bind_Ok_l
    by (rewrite length_replicate; lia).
  apply (assign_loop_inv T (T - 1)); [done..|lia|].
  constructor; simpl.
  - by rewrite length_insert, length_replicate.
  - by rewrite length_insert, length_replicate.
  - intros j Hj. rewrite list_lookup_insert_ne by lia.
    apply lookup_replicate_2. lia.
  - intros j k. destruct (decide (j = 0%nat)) as [->|Hj].
    + rewrite list_lookup_insert_eq by (rewrite length_replicate; lia).
      intros [= <-]. by right.
    + rewrite list_lookup_insert_ne by done. intros [-> _]%lookup_replicate. by left.
  - exists k0, d0. rewrite !list_lookup_insert_eq by (rewrite length_replicate; lia).
    done.
  - intros j Hj. lia.
Qed.
End Machine.

(** ** The state machine: the assignment sequence *)

Lemma time_span_of_uniform (T : nat) (trj : dist_dict) :
  uniform T trj → trj ≠ [] → time_span_of trj = Ok T.
Proof.
  intros Hu Hne. destruct trj as [|[k s] trj]; [done|].
  apply Forall_cons in Hu as [Hs _]. simpl in *. by rewrite Hs.
Qed.

(** C8: on a trajectory with at least one candidate and series of [T]
    frames, frame 0 among them, the state machine returns [T] sites and [T]
    distances, and the site of frame 0 is the key of least distance at
    frame 0, the same for all thresholds. *)
Theorem assign_sites_length_and_first (trj : dist_dict) (T : nat) :
  trj ≠ [] → uniform T trj → (1 ≤ T)%nat →
  ∃ k0 d0,
    is_min_at trj 0 k0 d0
    ∧ ∀ distance hopping_cutoff : Q,
        ∃ sites site_distance,
          assign_sites trj distance hopping_cutoff = Ok (sites, site_distance)
          ∧ length sites = T ∧ length site_distance = T
          ∧ sites !! 0%nat = Some (py_int k0)
          ∧ site_distance !! 0%nat = Some d0.
Proof.
  intros Hne Hu HT.
  destruct (py_min_total T trj 0) as [k0 Hmin]; [done..|lia|].
  destruct (py_min_spec _ _ _ Hmin) as (d0 & Hismin).
  exists k0, d0. split; [done|]. intros distance hopping_cutoff.
  destruct (assign_raw_inv trj distance hopping_cutoff T) as ([raw sd] & Hraw & Hinv);
    [done..|].
  destruct Hinv as [Hls Hld _ _ (k0' & d0' & Hk0 & Hd0 & Hmin' & Hget) _].
  simpl in *. rewrite Hmin in Hmin'. injection Hmin' as <-.
  destruct Hismin as (_ & Hget' & _). rewrite Hget in Hget'. injection Hget' as ->.
  exists (py_int <$> raw), sd. split_and!.
  - unfold assign_sites. rewrite (time_span_of_uniform T), bind_Ok_l by done.
    unfold site_machine. by rewrite Hraw.
  - by rewrite length_fmap.
  - done.
  - by rewrite list_lookup_fmap, Hk0.
  - done.
Qed.

Lemma assign_sites_length_and_first_witness :
  ∃ k0 d0,
    is_min_at [(KStr 7, qs [1; 1; 6]); (KStr 9, qs [5; 5; 1])] 0 k0 d0
    ∧ ∀ distance hopping_cutoff : Q,
        ∃ sites site_distance,
          assign_sites [(KStr 7, qs [1; 1; 6]); (KStr 9, qs [5; 5; 1])]
            distance hopping_cutoff = Ok (sites, site_distance)
          ∧ length sites = 3%nat ∧ length site_distance = 3%nat
          ∧ sites !! 0%nat = Some (py_int k0)
          ∧ site_distance !! 0%nat = Some d0.
Proof.
  apply (assign_sites_length_and_first
           [(KStr 7, qs [1; 1; 6]); (KStr 9, qs [5; 5; 1])] 3).
  - discriminate.
  - repeat constructor.
  - lia.
Defined.

Lemma py_eq_zero_true (k : key) : py_eq_zero k = true → k = KInt 0.
Proof. destruct k; simpl; [|done]. by intros ->%bool_decide_eq_true. Qed.

Lemma unbound_inv_insert (trj : dist_dict) (sites : list key) (sd : list Q)
    (t : nat) (k : key) (d : Q) :
  unbound_inv trj (sites, sd) →
  k ∈ keys trj ∨ (k = KInt 0 ∧ d = sentinel) →
  unbound_inv trj (<[t:=k]> sites, <[t:=d]> sd).
Proof.
  intros [Hlen Hinv] Hk. split; simpl in *; [by rewrite !length_insert|].
  intros j k'. destruct (decide (j = t)) as [->|Hjt].
  - intros Hj. assert (t < length sites)%nat as Ht.
    { apply lookup_lt_Some in Hj. by rewrite length_insert in Hj. }
    rewrite list_lookup_insert_eq in Hj by done. injection Hj as <-.
    rewrite list_lookup_insert_eq by lia.
    destruct Hk as [?|[-> ->]]; [by left|by right].
  - rewrite !list_lookup_insert_ne by done. apply Hinv.
Qed.

Lemma assign_step_unbound (trj : dist_dict) (distance hopping_cutoff : Q)
    (st st' : list key * list Q) (t : nat) :
  assign_step trj distance hopping_cutoff st t = Ok st' →
  unbound_inv trj st → unbound_inv trj st'.
Proof.
  destruct st as [sites sd]. unfold assign_step.
  intros (prev & Hprev%subscript_Ok & (old & Hold & Hrest)%bind_Ok)%bind_Ok Hinv.
  destruct (Qgt_bool old hopping_cutoff).
  - apply bind_Ok in Hrest as (m & Hm & (dm & Hdm & Hrest)%bind_Ok).
    destruct (py_min_spec _ _ _ Hm) as (? & Hmk & _).
    destruct (Qgt_bool dm distance).
    + apply bind_Ok in Hrest as (sd' & [Ht ->]%setitem_inv & [= <-]).
      destruct Hinv as [Hlen Hinv]. split; simpl in *; [by rewrite length_insert|].
      intros j k Hj. destruct (Hinv j k Hj) as [?|[-> Hs]]; [by left|right].
      split; [done|]. destruct (decide (j = t)) as [->|?].
      * by rewrite list_lookup_insert_eq.
      * by rewrite list_lookup_insert_ne.
    + apply bind_Ok in Hrest as (sites' & [_ ->]%setitem_inv & Hrest).
      apply bind_Ok in Hrest as (sd' & [_ ->]%setitem_inv & [= <-]).
      apply unbound_inv_insert; [done|by left].
  - apply bind_Ok in Hrest as (sites' & [_ ->]%setitem_inv & Hrest).
    apply bind_Ok in Hrest as (sd' & [_ ->]%setitem_inv & [= <-]).
    apply unbound_inv_insert; [done|].
    destruct (py_eq_zero prev) eqn:Hz.
    + right. apply py_eq_zero_true in Hz. by injection Hold as <-.
    + destruct Hinv as [_ Hinv]. destruct (Hinv _ _ Hprev) as [?|[-> _]]; [by left|done].
Qed.

Lemma assign_loop_unbound (trj : dist_dict) (distance hopping_cutoff : Q)
    (times : list nat) :
  ∀ st st', assign_loop trj distance hopping_cutoff times st = Ok st' →
            unbound_inv trj st → unbound_inv trj st'.
Proof.
  induction times as [|t times IH]; intros st st'; simpl.
  - by intros [= <-].
  - intros (st1 & Hstep & Hloop)%bind_Ok Hinv.
    eauto using assign_step_unbound.
Qed.

(** C6: whenever the state machine returns on a trajectory whose keys are
    nonzero as integers, each frame whose site is [0] has the distance
    [100]. *)
Theorem unbound_frames_carry_sentinel (trj : dist_dict)
    (distance hopping_cutoff : Q) (sites : list Z) (site_distance : list Q) :
  (∀ k, k ∈ keys trj → py_int k ≠ 0) →
  assign_sites trj distance hopping_cutoff = Ok (sites, site_distance) →
  ∀ t, sites !! t = Some 0 → site_distance !! t = Some sentinel.
Proof.
  intros Hkeys Hrun t Ht. unfold assign_sites in Hrun.
  apply bind_Ok in Hrun as (T & _ & Hrun). unfold site_machine in Hrun.
  destruct (assign_raw _ _ _ _) as [[raw sd]|e] eqn:Hraw; [|done].
  injection Hrun as <- <-.
  unfold assign_raw in Hraw.
  apply bind_Ok in Hraw as (k0 & Hmin & Hraw).
  apply bind_Ok in Hraw as (sites0 & [_ ->]%setitem_inv & Hraw).
  apply bind_Ok in Hraw as (d0 & Hd0 & Hraw).
  apply bind_Ok in Hraw as (sd0 & [_ ->]%setitem_inv & Hraw).
  apply assign_loop_unbound in Hraw as [_ Hinv].
  - rewrite list_lookup_fmap in Ht.
    destruct (raw !! t) as [k|] eqn:Hk; [|done]. injection Ht as Ht.
    destruct (Hinv t k Hk) as [Hin|[_ ?]]; [|done]. by apply Hkeys in Hin.
  - apply unbound_inv_insert.
    + split; simpl; [by rewrite !length_replicate|].
      intros j k [-> Hj]%lookup_replicate. right. split; [done|].
      by apply lookup_replicate_2.
    + left. by destruct (py_min_spec _ _ _ Hmin) as (? & ? & _).
Qed.

Lemma unbound_frames_carry_sentinel_witness :
  assign_sites [(KStr 7, qs [1; 9; 1])] 2 4 = Ok ([7; 0; 7], qs [1; 100; 1])
  ∧ qs [1; 100; 1] !! 1%nat = Some sentinel.
Proof.
  split; [reflexivity|].
  apply (unbound_frames_carry_sentinel [(KStr 7, qs [1; 9; 1])] 2 4
           [7; 0; 7] (qs [1; 100; 1])).
  - intros k ->%list_elem_of_singleton. discriminate.
  - reflexivity.
  - reflexivity.
Defined.

(** ** Equal thresholds *)




(** ** The distance trajectory builder *)

Lemma io_bind_value {A B} (m : io A) (f : A → io B) :
  (m ≫= f).2 = match m.2 with Ok a => (f a).2 | Raise e => Raise e end.
Proof. unfold mbind, io_bind. by destruct m.2. Qed.

(** C9: with a species that is no key of the selection mapping the builder
    prints its message and returns [None]; it selects no atoms and computes
    no distance, on any universe and frame range. *)
Theorem trajectory_invalid_species (nvt_run : Universe) (li_atom_id : Z)
    (run_start run_end : nat) (species : string)
    (selection_dict : gmap string string) (distance : Q) :
  selection_dict !! species = None →
  trajectory nvt_run li_atom_id run_start run_end species selection_dict distance
  = ([EvPrint "Invalid species selection"], Ok None).
Proof. intros Hnone. unfold trajectory. by rewrite Hnone. Qed.

Lemma trajectory_invalid_species_witness :
  trajectory {| n_frames := 2;
                select_atoms := λ _ _, [5];
                distance_array := λ _ _ _, 1%Q |}
    1 0 2 "anion" {["cation" := "type 3"]} 3
  = ([EvPrint "Invalid species selection"], Ok None).
Proof. apply trajectory_invalid_species. reflexivity. Defined.

Section BuilderFacts.
Variables (nvt_run : Universe) (li_atom_id : Z) (run_start run_end : nat).

Let N : nat := (run_end - run_start)%nat.

Lemma add_atom_uniform (dv : dist_dict) (atom_id : Z) :
  uniform N dv → uniform N (add_atom run_start run_end dv atom_id).
Proof.
  intros Hu. unfold add_atom. destruct (dict_get dv _); [done|].
  apply Forall_app. split; [done|]. constructor; [|done].
  simpl. by rewrite length_replicate.
Qed.

Lemma scan_frames_uniform (sel : selection) (frames : list nat) :
  ∀ dv, uniform N dv →
        ∃ dv', (scan_frames nvt_run run_start run_end sel frames dv).2 = Ok dv'
               ∧ uniform N dv'.
Proof.
  induction frames as [|ts frames IH]; intros dv Hu; cbn [scan_frames].
  - by exists dv.
  - rewrite io_bind_value. cbn [emit snd]. apply IH.
    generalize (select_atoms nvt_run ts sel). intros shell. revert dv Hu.
    induction shell as [|a shell IHs]; intros dv Hu; simpl; [done|].
    by apply IHs, add_atom_uniform.
Qed.

Lemma fill_frame_value (ts time_count : nat) (entries : dist_dict) :
  uniform N entries → (time_count < N)%nat →
  (fill_frame nvt_run li_atom_id ts time_count entries).2
  = Ok ((λ e, (e.1, <[time_count:=filled nvt_run li_atom_id ts e.1]> e.2)) <$> entries).
Proof.
  intros Hu Ht. induction entries as [|[k s] entries IH]; cbn [fill_frame]; [done|].
  apply Forall_cons in Hu as [Hs Hu]. simpl in Hs.
  rewrite io_bind_value. cbn [emit snd]. rewrite io_bind_value. cbn [lift snd].
  rewrite setitem_Ok by lia. cbn beta iota. rewrite io_bind_value.
  by rewrite IH.
Qed.

Lemma fill_frames_value (frames : list nat) :
  ∀ (time_count : nat) (dv : dist_dict),
    uniform N dv → (time_count + length frames ≤ N)%nat →
    ∃ dv', (fill_frames nvt_run li_atom_id frames time_count dv).2 = Ok dv'
           ∧ ∀ k s', (k, s') ∈ dv' →
               length s' = N
               ∧ (∀ i ts, frames !! i = Some ts →
                          s' !! (time_count + i)%nat = Some (filled nvt_run li_atom_id ts k))
               ∧ ∃ s, (k, s) ∈ dv
                      ∧ ∀ j, (j < time_count)%nat → s' !! j = s !! j.
Proof.
  induction frames as [|ts frames IH]; intros tc dv Hu Hlen;
    cbn [fill_frames length] in *.
  - exists dv. split; [done|]. intros k s' Hin. split_and!.
    + eapply Forall_forall in Hu; [|exact Hin]. done.
    + by intros i ts' ?.
    + by exists s'.
  - rewrite io_bind_value, fill_frame_value by (done || lia).
    set (dv1 := (λ e, (e.1, <[tc:=filled nvt_run li_atom_id ts e.1]> e.2)) <$> dv).
    destruct (IH (S tc) dv1) as (dv' & -> & Hspec); [|lia|].
    { unfold dv1, uniform. rewrite Forall_fmap. eapply Forall_impl; [done|].
      intros [k s]; simpl. by rewrite length_insert. }
    exists dv'. split; [done|]. intros k s' Hin.
    destruct (Hspec k s' Hin) as (Hl & Hlater & s1 & Hin1 & Hkeep).
    apply list_elem_of_fmap in Hin1 as ([k0 s] & [= -> ->] & Hin0). simpl in *.
    assert (length s = N) as Hs.
    { eapply Forall_forall in Hu; [|exact Hin0]. done. }
    split_and!; [done| |].
    + intros [|i] ts' Hi; simpl in Hi.
      * injection Hi as <-. rewrite Nat.add_0_r, Hkeep by lia.
        apply list_lookup_insert_eq. lia.
      * rewrite <- Nat.add_succ_comm. by apply Hlater.
    + exists s. split; [done|]. intros j Hj. rewrite Hkeep by lia.
      apply list_lookup_insert_ne. lia.
Qed.
End BuilderFacts.

(** C2, counterexample: with capture radius 3 atom 5 is selected in frame 0
    only, and the value stored for frame 1 is its distance 7, not 100. *)
Lemma sentinel_survives_claim_fails :
  ¬ sentinel_survives_claim two_frames 1 0 2 "anion" {["anion" := "type 3"]} 3.
Proof.
  intros Hclaim.
  specialize (Hclaim "type 3" [(KStr 5, qs [2; 7])] (KStr 5) (qs [2; 7]) 1%nat 1%nat).
  assert (qs [2; 7] !! 1%nat = Some sentinel) as Hbad; [|discriminate Hbad].
  apply Hclaim.
  - reflexivity.
  - vm_compute. reflexivity.
  - by apply list_elem_of_singleton.
  - reflexivity.
  - vm_compute. by intros ?%elem_of_nil.
Qed.

(** C2, amended: the builder returns a dictionary whose series have
    [run_end - run_start] entries, and the value of every key at every
    frame of the window is the distance of its atom to the reference atom
    at that frame, whether the atom was selected at that frame or not. *)
Theorem trajectory_stores_distances (nvt_run : Universe) (li_atom_id : Z)
    (run_start run_end : nat) (species : string)
    (selection_dict : gmap string string) (distance : Q) (expr : string) :
  selection_dict !! species = Some expr →
  ∃ dv,
    (trajectory nvt_run li_atom_id run_start run_end species selection_dict distance).2
    = Ok (Some dv)
    ∧ ∀ k s, (k, s) ∈ dv →
        length s = (run_end - run_start)%nat
        ∧ ∀ time_count ts,
            slice_frames nvt_run run_start run_end !! time_count = Some ts →
            s !! time_count
            = Some (distance_array nvt_run ts (li_atom_id - 1) (py_int k - 1)).
Proof.
  intros Hsel. unfold trajectory. rewrite Hsel, io_bind_value.
  destruct (scan_frames_uniform nvt_run run_start run_end
              (Selection expr distance (li_atom_id - 1))
              (slice_frames nvt_run run_start run_end) [])
    as (dv1 & -> & Hu1); [constructor|].
  rewrite io_bind_value.
  destruct (fill_frames_value nvt_run li_atom_id run_start run_end
              (slice_frames nvt_run run_start run_end) 0 dv1)
    as (dv & -> & Hspec); [done| |].
  { unfold slice_frames. rewrite length_seq. lia. }
  exists dv. split; [done|]. intros k s Hin.
  destruct (Hspec k s Hin) as (Hlen & Hfilled & _).
  split; [done|]. intros tc ts Hts. by apply (Hfilled tc ts).
Qed.

Lemma trajectory_stores_distances_witness :
  ∃ dv,
    (trajectory two_frames 1 0 2 "anion" {["anion" := "type 3"]} 3).2 = Ok (Some dv)
    ∧ ∀ k s, (k, s) ∈ dv →
        length s = (2 - 0)%nat
        ∧ ∀ time_count ts,
            slice_frames two_frames 0 2 !! time_count = Some ts →
            s !! time_count
            = Some (distance_array two_frames ts (1 - 1) (py_int k - 1)).
Proof.
  apply (trajectory_stores_distances two_frames 1 0 2 "anion"
           {["anion" := "type 3"]} 3 "type 3").
  reflexivity.
Defined.

(** * Further properties *)

(** ** The state machine on every frame *)

Lemma next_site_cases (trj : dist_dict) (distance hopping_cutoff : Q)
    (prev c : key) (t : nat) (d : Q) :
  next_site trj distance hopping_cutoff prev t = Ok (c, d) →
  ∃ old,
    (if py_eq_zero prev then Ok sentinel else get_at trj prev t) = Ok old
    ∧ (((old <= hopping_cutoff)%Q ∧ c = prev ∧ d = old)
       ∨ ((hopping_cutoff < old)%Q
          ∧ ∃ m dm, py_min trj t = Ok m ∧ get_at trj m t = Ok dm
                    ∧ (((distance < dm)%Q ∧ c = KInt 0 ∧ d = sentinel)
                       ∨ ((dm <= distance)%Q ∧ c = m ∧ d = dm)))).
Proof.
  unfold next_site. intros (old & Hold & Hrest)%bind_Ok. exists old. split; [done|].
  destruct (Qgt_bool old hopping_cutoff) eqn:Hgt.
  - apply Qgt_bool_true in Hgt. right. split; [done|].
    apply bind_Ok in Hrest as (m & Hm & (dm & Hdm & Hrest)%bind_Ok).
    exists m, dm. split_and!; [done..|].
    destruct (Qgt_bool dm distance) eqn:Hgt'; injection Hrest as <- <-.
    + left. by apply Qgt_bool_true in Hgt'.
    + right. by apply Qgt_bool_false in Hgt'.
  - apply Qgt_bool_false in Hgt. left. by injection Hrest as <- <-.
Qed.

(** The machine on a well-formed trajectory, with the facts of every frame. *)
Lemma assign_sites_frames (trj : dist_dict) (distance hopping_cutoff : Q) (T : nat) :
  trj ≠ [] → uniform T trj → (1 ≤ T)%nat →
  ∃ raw sd,
    assign_raw trj distance hopping_cutoff T = Ok (raw, sd)
    ∧ assign_sites trj distance hopping_cutoff = Ok (py_int <$> raw, sd)
    ∧ machine_inv trj distance hopping_cutoff T T (raw, sd).
Proof.
  intros Hne Hu HT.
  destruct (assign_raw_inv trj distance hopping_cutoff T) as ([raw sd] & Hraw & Hinv);
    [done..|].
  exists raw, sd. split_and!; [done| |done].
  unfold assign_sites. rewrite (time_span_of_uniform T), bind_Ok_l by done.
  unfold site_machine. by rewrite Hraw.
Qed.

(** X1: on a trajectory with a candidate and series of [T >= 1] frames, the
    site of every frame that is not the unbound site is a key of the
    trajectory, and the distance recorded for the frame is the distance of
    that key at that frame. *)
Theorem recorded_distance_is_site_distance (trj : dist_dict)
    (distance hopping_cutoff : Q) (T : nat) :
  trj ≠ [] → uniform T trj → (1 ≤ T)%nat →
  ∃ raw site_distance,
    assign_raw trj distance hopping_cutoff T = Ok (raw, site_distance)
    ∧ assign_sites trj distance hopping_cutoff = Ok (py_int <$> raw, site_distance)
    ∧ ∀ t k, raw !! t = Some k → k ≠ KInt 0 →
             k ∈ keys trj
             ∧ ∃ d, site_distance !! t = Some d ∧ get_at trj k t = Ok d.
Proof.
  intros Hne Hu HT.
  destruct (assign_sites_frames trj distance hopping_cutoff T)
    as (raw & sd & Hraw & Hsites & Hinv); [done..|].
  exists raw, sd. split_and!; [done..|]. intros t k Hk Hnz.
  destruct Hinv as [Hls _ _ Hsite (k0 & d0 & Hk0 & Hd0 & _ & Hget0) Htr]. simpl in *.
  split. { destruct (Hsite _ _ Hk) as [->|?]; done. }
  destruct t as [|t].
  - rewrite Hk0 in Hk. injection Hk as <-. eauto.
  - destruct (Htr (S t)) as (p & c & d & Hp & Hc & Hd & Hnext).
    { apply lookup_lt_Some in Hk. lia. }
    rewrite Hk in Hc. injection Hc as <-.
    exists d. split; [done|].
    apply next_site_cases in Hnext as (old & Hold & [(_ & -> & ->)|(_ & m & dm & Hm & Hdm & Hcase)]).
    + destruct (py_eq_zero p) eqn:Hz; [|done]. by apply py_eq_zero_true in Hz.
    + destruct Hcase as [(_ & -> & _)|(_ & -> & ->)]; done.
Qed.

Lemma recorded_distance_is_site_distance_witness :
  ∃ raw site_distance,
    assign_raw [(KStr 7, qs [1; 9; 1])] 2 4 3 = Ok (raw, site_distance)
    ∧ assign_sites [(KStr 7, qs [1; 9; 1])] 2 4 = Ok (py_int <$> raw, site_distance)
    ∧ ∀ t k, raw !! t = Some k → k ≠ KInt 0 →
             k ∈ keys [(KStr 7, qs [1; 9; 1])]
             ∧ ∃ d, site_distance !! t = Some d
                    ∧ get_at [(KStr 7, qs [1; 9; 1])] k t = Ok d.
Proof.
  apply (recorded_distance_is_site_distance [(KStr 7, qs [1; 9; 1])] 2 4 3).
  - discriminate.
  - repeat constructor.
  - lia.
Defined.

(** X2: a frame [t >= 1] with a bound site either keeps the site of the
    frame before, at a distance of at most [hopping_cutoff], or has a
    distance of at most the binding cutoff [distance]. *)
Theorem bound_frame_within_cutoff (trj : dist_dict)
    (distance hopping_cutoff : Q) (T : nat) :
  trj ≠ [] → uniform T trj → (1 ≤ T)%nat →
  ∃ raw site_distance,
    assign_raw trj distance hopping_cutoff T = Ok (raw, site_distance)
    ∧ assign_sites trj distance hopping_cutoff = Ok (py_int <$> raw, site_distance)
    ∧ ∀ t k d, (1 ≤ t)%nat → raw !! t = Some k → k ≠ KInt 0 →
               site_distance !! t = Some d →
               (raw !! (t - 1)%nat = Some k ∧ (d <= hopping_cutoff)%Q)
               ∨ (d <= distance)%Q.
Proof.
  intros Hne Hu HT.
  destruct (assign_sites_frames trj distance hopping_cutoff T)
    as (raw & sd & Hraw & Hsites & Hinv); [done..|].
  exists raw, sd. split_and!; [done..|]. intros t k d Ht Hk Hnz Hd.
  destruct Hinv as [Hls _ _ _ _ Htr]. simpl in *.
  destruct (Htr t) as (p & c & d' & Hp & Hc & Hd' & Hnext).
  { apply lookup_lt_Some in Hk. lia. }
  rewrite Hk in Hc. injection Hc as <-. rewrite Hd in Hd'. injection Hd' as <-.
  apply next_site_cases in Hnext as (old & Hold & [(Hle & -> & ->)|(_ & m & dm & Hm & Hdm & Hcase)]).
  - by left.
  - destruct Hcase as [(_ & -> & _)|(Hle & -> & ->)]; [done|by right].
Qed.

Lemma bound_frame_within_cutoff_witness :
  ∃ raw site_distance,
    assign_raw [(KStr 7, qs [1; 9; 1])] 2 4 3 = Ok (raw, site_distance)
    ∧ assign_sites [(KStr 7, qs [1; 9; 1])] 2 4 = Ok (py_int <$> raw, site_distance)
    ∧ ∀ t k d, (1 ≤ t)%nat → raw !! t = Some k → k ≠ KInt 0 →
               site_distance !! t = Some d →
               (raw !! (t - 1)%nat = Some k ∧ (d <= 4)%Q)
               ∨ (d <= 2)%Q.
Proof.
  apply (bound_frame_within_cutoff [(KStr 7, qs [1; 9; 1])] 2 4 3).
  - discriminate.
  - repeat constructor.
  - lia.
Defined.

(** X3: on a frame [t >= 1] after a bound site, the site and its distance
    are kept when the distance of that site at [t] is at most
    [hopping_cutoff]; when it is above, the site is the key of least
    distance at [t] if that distance is at most [distance], and the
    unbound site otherwise. *)
Theorem site_changes_only_beyond_cutoff (trj : dist_dict)
    (distance hopping_cutoff : Q) (T : nat) :
  trj ≠ [] → uniform T trj → (1 ≤ T)%nat →
  ∃ raw site_distance,
    assign_raw trj distance hopping_cutoff T = Ok (raw, site_distance)
    ∧ assign_sites trj distance hopping_cutoff = Ok (py_int <$> raw, site_distance)
    ∧ ∀ t prev dp, (1 ≤ t < T)%nat → raw !! (t - 1)%nat = Some prev →
                   prev ≠ KInt 0 → get_at trj prev t = Ok dp →
                   ((dp <= hopping_cutoff)%Q →
                    raw !! t = Some prev ∧ site_distance !! t = Some dp)
                   ∧ ((hopping_cutoff < dp)%Q →
                      ∃ m dm, is_min_at trj t m dm
                              ∧ raw !! t = Some (if Qle_bool dm distance then m else KInt 0)).
Proof.
  intros Hne Hu HT.
  destruct (assign_sites_frames trj distance hopping_cutoff T)
    as (raw & sd & Hraw & Hsites & Hinv); [done..|].
  exists raw, sd. split_and!; [done..|]. intros t prev dp Ht Hprev Hnz Hdp.
  destruct Hinv as [_ _ _ _ _ Htr]. simpl in *.
  destruct (Htr t Ht) as (p & c & d & Hp & Hc & Hd & Hnext).
  rewrite Hprev in Hp. injection Hp as <-.
  apply next_site_cases in Hnext as (old & Hold & Hcase).
  assert (py_eq_zero prev = false) as Hz.
  { destruct (py_eq_zero prev) eqn:Hz; [|done]. by apply py_eq_zero_true in Hz. }
  rewrite Hz, Hdp in Hold. injection Hold as <-.
  split.
  - intros Hle. destruct Hcase as [(_ & -> & ->)|(Hlt & _)]; [done|].
    by apply Qle_not_lt in Hle.
  - intros Hlt. destruct Hcase as [(Hle & _)|(_ & m & dm & Hm & Hdm & Hcase)].
    { by apply Qle_not_lt in Hle. }
    destruct (py_min_spec _ _ _ Hm) as (dm' & Hmin).
    assert (dm' = dm) as ->.
    { destruct Hmin as (_ & Hdm' & _). rewrite Hdm in Hdm'. by injection Hdm'. }
    exists m, dm. split; [done|].
    destruct Hcase as [(Hgt & -> & _)|(Hle & -> & _)].
    + apply Qgt_bool_true in Hgt. unfold Qgt_bool in Hgt.
      apply negb_true_iff in Hgt. by rewrite Hgt.
    + apply Qle_bool_iff in Hle. by rewrite Hle.
Qed.

Lemma site_changes_only_beyond_cutoff_witness :
  ∃ raw site_distance,
    assign_raw [(KStr 7, qs [1; 9; 1])] 2 4 3 = Ok (raw, site_distance)
    ∧ assign_sites [(KStr 7, qs [1; 9; 1])] 2 4 = Ok (py_int <$> raw, site_distance)
    ∧ ∀ t prev dp, (1 ≤ t < 3)%nat → raw !! (t - 1)%nat = Some prev →
                   prev ≠ KInt 0 → get_at [(KStr 7, qs [1; 9; 1])] prev t = Ok dp →
                   ((dp <= 4)%Q →
                    raw !! t = Some prev ∧ site_distance !! t = Some dp)
                   ∧ ((4 < dp)%Q →
                      ∃ m dm, is_min_at [(KStr 7, qs [1; 9; 1])] t m dm
                              ∧ raw !! t = Some (if Qle_bool dm 2 then m else KInt 0)).
Proof.
  apply (site_changes_only_beyond_cutoff [(KStr 7, qs [1; 9; 1])] 2 4 3).
  - discriminate.
  - repeat constructor.
  - lia.
Defined.

(** X4: on a frame [t >= 1] after an unbound frame, when
    [hopping_cutoff] is below the sentinel [100] the site is the key of
    least distance at [t] if that distance is at most [distance] and the
    unbound site otherwise; when [hopping_cutoff] is [100] or more the
    frame is unbound whatever the distances. *)
Theorem after_unbound_frame (trj : dist_dict) (distance hopping_cutoff : Q) (T : nat) :
  trj ≠ [] → uniform T trj → (1 ≤ T)%nat →
  ∃ raw site_distance,
    assign_raw trj distance hopping_cutoff T = Ok (raw, site_distance)
    ∧ assign_sites trj distance hopping_cutoff = Ok (py_int <$> raw, site_distance)
    ∧ ∀ t, (1 ≤ t < T)%nat → raw !! (t - 1)%nat = Some (KInt 0) →
        ((hopping_cutoff < sentinel)%Q →
         ∃ m dm, is_min_at trj t m dm
                 ∧ raw !! t = Some (if Qle_bool dm distance then m else KInt 0))
        ∧ ((sentinel <= hopping_cutoff)%Q → raw !! t = Some (KInt 0)).
Proof.
  intros Hne Hu HT.
  destruct (assign_sites_frames trj distance hopping_cutoff T)
    as (raw & sd & Hraw & Hsites & Hinv); [done..|].
  exists raw, sd. split_and!; [done..|]. intros t Ht Hprev.
  destruct Hinv as [_ _ _ _ _ Htr]. simpl in *.
  destruct (Htr t Ht) as (p & c & d & Hp & Hc & Hd & Hnext).
  rewrite Hprev in Hp. injection Hp as <-.
  apply next_site_cases in Hnext as (old & Hold & Hcase).
  simpl in Hold. injection Hold as <-.
  split.
  - intros Hlt. destruct Hcase as [(Hle & _)|(_ & m & dm & Hm & Hdm & Hcase)].
    { by apply Qle_not_lt in Hle. }
    destruct (py_min_spec _ _ _ Hm) as (dm' & Hmin).
    assert (dm' = dm) as ->.
    { destruct Hmin as (_ & Hdm' & _). rewrite Hdm in Hdm'. by injection Hdm'. }
    exists m, dm. split; [done|].
    destruct Hcase as [(Hgt & -> & _)|(Hle & -> & _)].
    + apply Qgt_bool_true in Hgt. unfold Qgt_bool in Hgt.
      apply negb_true_iff in Hgt. by rewrite Hgt.
    + apply Qle_bool_iff in Hle. by rewrite Hle.
  - intros Hle. destruct Hcase as [(_ & -> & _)|(Hlt & _)]; [done|].
    by apply Qle_not_lt in Hle.
Qed.

Lemma after_unbound_frame_witness :
  ∃ raw site_distance,
    assign_raw [(KStr 7, qs [1; 9; 1])] 2 4 3 = Ok (raw, site_distance)
    ∧ assign_sites [(KStr 7, qs [1; 9; 1])] 2 4 = Ok (py_int <$> raw, site_distance)
    ∧ ∀ t, (1 ≤ t < 3)%nat → raw !! (t - 1)%nat = Some (KInt 0) →
        ((4 < sentinel)%Q →
         ∃ m dm, is_min_at [(KStr 7, qs [1; 9; 1])] t m dm
                 ∧ raw !! t = Some (if Qle_bool dm 2 then m else KInt 0))
        ∧ ((sentinel <= 4)%Q → raw !! t = Some (KInt 0)).
Proof.
  apply (after_unbound_frame [(KStr 7, qs [1; 9; 1])] 2 4 3).
  - discriminate.
  - repeat constructor.
  - lia.
Defined.

(** ** The episodes of the reducer *)

Lemma steps_step_inv (arr : list (Z * Q)) (i : nat) (st : list nat * nat * Z)
    (e : nat) (step : Z * Q) :
  arr !! i = Some step → steps_inv arr i st e →
  ∃ st' e', steps_step arr st i step = Ok st' ∧ steps_inv arr (S i) st' e'.
Proof.
  intros Hi [Hpos Hstart Hopen Hclosed Hbelow Hinc Hbound].
  destruct st as [[steps c] prev]. destruct step as [site d]. simpl in *.
  unfold steps_step. cbn [fst snd].
  case_bool_decide as Hs0.
  { (* an unbound frame *)
    subst site. exists (steps, c, prev), e. split; [done|].
    constructor; simpl; try done.
    - left. destruct Hpos as [[? ?]|(-> & -> & -> & _)]; lia.
    - intros j s d' Hj Hjs Hs. destruct (decide (j = i)) as [->|?].
      + rewrite Hi in Hjs. by injection Hjs as <- <-.
      + apply (Hopen j s d'); [lia|done..]. }
  case_bool_decide as Hsp.
  { (* the site of the open episode *)
    subst prev.
    assert (∃ dc, arr !! c = Some (site, dc) ∧ (e ≤ c)%nat
                  ∧ (∀ j s d', (e ≤ j < i)%nat → arr !! j = Some (s, d') → s ≠ 0 →
                               (dc <= d')%Q)
                  ∧ (c < i ∨ (i = 0 ∧ c = 0 ∧ dc = d))%nat) as (dc & Hc & Hec & Hmin & Hci).
    { destruct Hpos as [[Hci Hei]|(-> & -> & -> & d0 & H0)].
      - destruct (Hstart Hs0) as [de He].
        destruct (Hopen e site de) as (_ & Hec & dc & Hc & _); [lia|done..|].
        exists dc. split_and!; [done..| |by left].
        intros j s d' Hj Hjs Hs.
        destruct (Hopen j s d' Hj Hjs Hs) as (_ & _ & dc' & Hc' & Hle).
        rewrite Hc in Hc'. by injection Hc' as <-.
      - rewrite Hi in H0. injection H0 as <-.
        exists d. split_and!; [done|lia| |by right].
        intros j s d' Hj. lia. }
    apply subscript_Ok in Hc as Hsub. rewrite Hsub, bind_Ok_l. cbn [snd].
    destruct (Qlt_bool d dc) eqn:Hlt.
    - apply Qlt_bool_true in Hlt.
      exists (steps, i, site), e. split; [done|].
      constructor; simpl.
      + left. destruct Hpos as [[? ?]|(-> & -> & -> & _)]; lia.
      + done.
      + intros j s d' Hj Hjs Hs. destruct (decide (j = i)) as [->|?].
        * rewrite Hi in Hjs. injection Hjs as <- <-.
          split_and!; [done| |].
          { destruct Hpos as [[? ?]|(-> & -> & -> & _)]; lia. }
          exists d. split; [done|apply Qle_refl].
        * destruct (Hopen j s d') as (-> & _ & _); [lia|done..|].
          split_and!; [done| |].
          { destruct Hpos as [[? ?]|(-> & -> & -> & _)]; lia. }
          exists d. split; [done|].
          apply Qlt_le_weak. eapply Qlt_le_trans; [done|].
          apply (Hmin j site d'); [lia|done..].
      + done.
      + eapply Forall_impl; [done|]. simpl. intros x Hx.
        destruct Hci as [?|(-> & -> & _)]; lia.
      + done.
      + done.
    - apply Qlt_bool_false in Hlt.
      exists (steps, c, site), e. split; [done|].
      constructor; simpl; try done.
      + left. destruct Hpos as [[? ?]|(-> & -> & -> & _)]; lia.
      + intros j s d' Hj Hjs Hs. destruct (decide (j = i)) as [->|?].
        * rewrite Hi in Hjs. injection Hjs as <- <-.
          split_and!; [done..|]. by exists dc.
        * destruct (Hopen j s d') as (-> & _ & _); [lia|done..|].
          split_and!; [done..|]. exists dc. split; [done|].
          apply (Hmin j site d'); [lia|done..]. }
  (* another site: the open episode is closed *)
  assert (c < i ∧ e < i)%nat as [Hci Hei].
  { destruct Hpos as [?|(-> & _ & _ & d0 & H0)]; [done|].
    rewrite Hi in H0. by injection H0 as <- _. }
  exists (steps ++ [c], i, site), i. split; [done|].
  constructor; simpl.
  - left. lia.
  - intros _. by exists d.
  - intros j s d' Hj Hjs Hs. assert (j = i) as -> by lia.
    rewrite Hi in Hjs. injection Hjs as <- <-.
    split_and!; [done..|]. exists d. split; [done|apply Qle_refl].
  - intros j s d' Hj Hjs Hs. destruct (decide (j < e)%nat) as [Hje|Hje].
    + destruct (Hclosed j s d' Hje Hjs Hs) as (c' & Hc' & Hcov).
      exists c'. split; [|done]. apply elem_of_app. by left.
    + destruct (Hopen j s d') as (-> & Hec & dc & Hc & Hle); [lia|done..|].
      exists c. split; [apply elem_of_app; right; by apply list_elem_of_singleton|].
      exists prev, d', dc. split_and!; [done..|].
      intros m r Hm Hr. destruct (decide (r.1 = 0)) as [?|Hr0]; [by left|right].
      destruct r as [s' d'']. simpl in *.
      by destruct (Hopen m s' d'') as (-> & _); [lia|done..|].
  - apply Forall_app. split.
    + eapply Forall_impl; [done|]. simpl. intros; lia.
    + by repeat constructor.
  - apply increasing_snoc; [done|]. done.
  - intros s0 d0 H0 Hs0'. split; [done|].
    destruct (Hbound s0 d0 H0 Hs0') as [Hprev Hsteps].
    intros c' [Hc'|Hc']%elem_of_app; [by apply Hsteps|].
    apply list_elem_of_singleton in Hc' as ->.
    destruct (Hstart Hprev) as [de He].
    destruct (Hopen e prev de) as (_ & _ & dc & Hc & _); [lia|done..|].
    by exists (prev, dc).
Qed.

Lemma steps_loop_inv (arr : list (Z * Q)) (rows : list (Z * Q)) :
  ∀ (i : nat) (st : list nat * nat * Z) (e : nat),
    drop i arr = rows → (i ≤ length arr)%nat → steps_inv arr i st e →
    ∃ st' e', steps_loop arr i rows st = Ok st'
              ∧ steps_inv arr (length arr) st' e'.
Proof.
  induction rows as [|step rows IH]; intros i st e Hdrop Hlen Hinv; simpl.
  - exists st, e. split; [done|].
    apply (f_equal length) in Hdrop. rewrite length_drop in Hdrop. simpl in Hdrop.
    by replace (length arr) with i by lia.
  - assert (arr !! i = Some step) as Hi.
    { rewrite <- (Nat.add_0_r i), <- lookup_drop, Hdrop. done. }
    destruct (steps_step_inv arr i st e step Hi Hinv) as (st1 & e1 & -> & Hinv1).
    rewrite bind_Ok_l. apply (IH (S i) st1 e1); [|by apply lookup_lt_Some in Hi|done].
    replace (S i) with (i + 1)%nat by lia. by rewrite <- drop_drop, Hdrop.
Qed.

(** The reducer on a non-empty array of rows. *)
Lemma closest_steps_inv (sites : list Z) (site_distance : list Q) (steps : list nat) :
  closest_steps sites site_distance = Ok steps →
  ∃ st e, steps = st.1.1 ++ [st.1.2]
          ∧ (0 < length (zip sites site_distance))%nat
          ∧ steps_inv (zip sites site_distance) (length (zip sites site_distance)) st e.
Proof.
  unfold closest_steps. set (arr := zip sites site_distance).
  intros (row0 & Hrow0%subscript_Ok & Hrest)%bind_Ok.
  destruct (steps_loop_inv arr arr 0 ([], 0%nat, row0.1) 0) as (st & e & Hloop & Hinv).
  - done.
  - lia.
  - constructor; simpl.
    + right. split_and!; [done..|]. exists row0.2. by destruct row0.
    + intros _. exists row0.2. by destruct row0.
    + intros j s d Hj. lia.
    + intros j s d Hj. lia.
    + constructor.
    + constructor.
    + intros s0 d0 H0 Hs0. rewrite Hrow0 in H0. injection H0 as ->.
      split; [done|]. by intros c ?%elem_of_nil.
  - rewrite Hloop, bind_Ok_l in Hrest. injection Hrest as <-. exists st, e.
    split_and!; [done| |done]. apply lookup_lt_Some in Hrow0. done.
Qed.

(** X5: the frames the reducer emits are strictly increasing and are
    frames of the sequence; when the site of frame 0 is nonzero, the site
    of every emitted frame is nonzero. *)
Theorem closest_steps_increasing (sites : list Z) (site_distance : list Q)
    (steps : list nat) :
  closest_steps sites site_distance = Ok steps →
  increasing steps
  ∧ (∀ c, c ∈ steps → (c < length sites)%nat)
  ∧ ∀ site0, sites !! 0%nat = Some site0 → site0 ≠ 0 →
      ∀ c, c ∈ steps → ∃ s, sites !! c = Some s ∧ s ≠ 0.
Proof.
  intros Hrun.
  destruct (closest_steps_inv _ _ _ Hrun) as ([[st c] prev] & e & -> & Hpos0 & Hinv).
  set (arr := zip sites site_distance) in *.
  destruct Hinv as [Hpos Hstart Hopen Hclosed Hbelow Hinc Hbound]. simpl in *.
  assert (c < length arr)%nat as Hc.
  { destruct Hpos as [[? _]|(Hl & _)]; [done|lia]. }
  assert (length arr ≤ length sites)%nat as Hlen.
  { unfold arr. rewrite length_zip. lia. }
  split_and!.
  - by apply increasing_snoc.
  - intros c' [Hc'|Hc']%elem_of_app.
    + eapply Forall_forall in Hbelow; [|done]. simpl in Hbelow. lia.
    + apply list_elem_of_singleton in Hc' as ->. lia.
  - intros site0 Hs0 Hnz.
    destruct (lookup_lt_is_Some_2 arr 0) as [[s0 d0] H0]; [lia|].
    assert (s0 = site0) as ->.
    { unfold arr in H0. apply lookup_zip_with_Some in H0 as (x & y & [= -> ->] & Hx & _).
      rewrite Hs0 in Hx. by injection Hx. }
    destruct (Hbound site0 d0 H0 Hnz) as [Hprev Hsteps].
    assert (∀ c' r, arr !! c' = Some r → sites !! c' = Some r.1) as Hsites.
    { intros c' r Hr. unfold arr in Hr.
      apply lookup_zip_with_Some in Hr as (x & y & -> & Hx & _). done. }
    intros c' [Hc'|Hc']%elem_of_app.
    + destruct (Hsteps c' Hc') as (r & Hr & Hr0). exists r.1. split; [eauto|done].
    + apply list_elem_of_singleton in Hc' as ->.
      destruct (Hstart Hprev) as [de He].
      destruct Hpos as [[_ Hei]|(Hl & _)]; [|lia].
      destruct (Hopen e prev de) as (_ & _ & dc & Hcc & _); [lia|done..|].
      exists prev. split; [by apply (Hsites c (prev, dc))|done].
Qed.

Lemma closest_steps_increasing_witness :
  increasing [0; 2]%nat
  ∧ (∀ c, c ∈ [0; 2]%nat → (c < length [7; 0; 9])%nat)
  ∧ ∀ site0, [7; 0; 9] !! 0%nat = Some site0 → site0 ≠ 0 →
      ∀ c, c ∈ [0; 2]%nat → ∃ s, [7; 0; 9] !! c = Some s ∧ s ≠ 0.
Proof.
  apply (closest_steps_increasing [7; 0; 9] (qs [1; 100; 2]) [0; 2]%nat).
  reflexivity.
Defined.



(** ** The transitions kept by the extractor *)

Lemma pop_sublist (l l' : list nat) : pop l = Ok l' → l' `sublist_of` l.
Proof.
  destruct l as [|y l _] using rev_ind; [done|].
  rewrite pop_snoc. intros [= ->]. by apply sublist_inserts_r.
Qed.

Lemma hop_in_true (p s : Z) : hop_in p s = true ↔ p = 0 ∧ s ≠ 0.
Proof. unfold hop_in. by rewrite andb_true_iff, !bool_decide_eq_true. Qed.

Lemma hop_out_true (p s : Z) : hop_out p s = true ↔ p ≠ 0 ∧ s = 0.
Proof. unfold hop_out. by rewrite andb_true_iff, !bool_decide_eq_true. Qed.

Lemma hop_in_false (p s : Z) : p ≠ 0 ∨ s = 0 → hop_in p s = false.
Proof. intros H. apply not_true_iff_false. rewrite hop_in_true. tauto. Qed.

Lemma hop_out_false (p s : Z) : p = 0 ∨ s ≠ 0 → hop_out p s = false.
Proof. intros H. apply not_true_iff_false. rewrite hop_out_true. tauto. Qed.

Lemma hop_step_kept (cool : Z) (i : nat) (s : Z) (st : hop_state)
    (e_in e_out : list nat) :
  hop_inv cool i st → hop_kept st e_in e_out →
  ∃ st', hop_step cool st i s = Ok st'
         ∧ hop_inv cool (S i) st' ∧ last st' = s
         ∧ hop_kept st' (e_in ++ (if hop_in (last st) s then [i] else []))
                        (e_out ++ (if hop_out (last st) s then [i] else [])).
Proof.
  intros Hinv [Hisub Hosub Hilast Holast].
  destruct (hop_step_inv cool i s st Hinv) as (st' & Hstep & Hinv' & Hlast).
  exists st'. split_and!; [done..|]. clear Hlast.
  unfold hop_step in Hstep.
  destruct st as [l si so ic oc]; cbn [last steps_in steps_out in_cool out_cool] in *.
  case_bool_decide as Hls.
  { injection Hstep as <-. subst l.
    rewrite hop_in_false, hop_out_false, !app_nil_r by (destruct (decide (s = 0)); auto).
    constructor; simpl; done. }
  case_bool_decide as Hl0.
  { subst l. assert (s ≠ 0) as Hs by congruence.
    rewrite (proj2 (hop_in_true 0 s)), hop_out_false, app_nil_r by auto.
    apply bind_Ok in Hstep as (st1 & Hst1 & [= <-]).
    apply bind_Ok in Hst1 as (so' & Hso' & [= <-]). simpl.
    constructor; simpl.
    - by apply sublist_app.
    - etrans; [|done]. case_bool_decide; [by apply pop_sublist|by injection Hso' as <-].
    - intros _ e x [-> ->]%app_inj_tail. eauto.
    - done. }
  case_bool_decide as Hs0.
  { subst s.
    rewrite (proj2 (hop_out_true l 0)), hop_in_false, app_nil_r by auto.
    apply bind_Ok in Hstep as (st1 & Hst1 & [= <-]).
    apply bind_Ok in Hst1 as (si' & Hsi' & [= <-]). simpl.
    constructor; simpl.
    - etrans; [|done]. case_bool_decide; [by apply pop_sublist|by injection Hsi' as <-].
    - by apply sublist_app.
    - done.
    - intros _ e x [-> ->]%app_inj_tail. eauto. }
  rewrite hop_in_false, hop_out_false, !app_nil_r by auto.
  injection Hstep as <-. simpl. constructor; simpl; [done|done| |done].
  intros _. by apply Hilast.
Qed.

Lemma hop_loop_kept (cool : Z) (sites : list Z) :
  ∀ (i : nat) (st : hop_state) (e_in e_out : list nat),
    hop_inv cool i st → hop_kept st e_in e_out →
    ∃ st', hop_loop cool i sites st = Ok st'
           ∧ last st' = foldl (λ _ s, s) (last st) sites
           ∧ hop_kept st' (e_in ++ events_from hop_in (last st) i sites)
                          (e_out ++ events_from hop_out (last st) i sites).
Proof.
  induction sites as [|s sites IH]; intros i st e_in e_out Hinv Hkept; simpl.
  - exists st. by rewrite !app_nil_r.
  - destruct (hop_step_kept cool i s st e_in e_out Hinv Hkept)
      as (st1 & -> & Hinv1 & Hlast1 & Hkept1).
    rewrite bind_Ok_l.
    destruct (IH (S i) st1 _ _ Hinv1 Hkept1) as (st' & -> & Hlast' & Hkept').
    exists st'. rewrite Hlast1 in Hlast', Hkept'. rewrite !app_assoc. done.
Qed.

Lemma hop_kept_init (cool last0 : Z) : hop_kept (HopState last0 [] [] cool cool) [] [].
Proof.
  constructor; simpl; try done.
  - intros _ e x Heq. by destruct e.
  - intros _ e x Heq. by destruct e.
Qed.

(** The run of the extractor against the transitions of the site list. *)
Lemma hop_events_kept (cool : Z) (sites : list Z) (ins outs : list nat) (s0 : Z) :
  sites !! 0%nat = Some s0 →
  hop_events cool sites = Ok (ins, outs) →
  ∃ st, steps_in st = ins ∧ steps_out st = outs
        ∧ last st = foldl (λ _ s, s) s0 sites
        ∧ hop_kept st (events_from hop_in s0 0 sites) (events_from hop_out s0 0 sites).
Proof.
  intros Hs0 Hrun. unfold hop_events in Hrun.
  apply subscript_Ok in Hs0. rewrite Hs0, bind_Ok_l in Hrun.
  destruct (hop_loop_kept cool sites 0 _ [] [] (hop_inv_init cool s0) (hop_kept_init cool s0))
    as (st & Hloop & Hlast & Hkept).
  rewrite Hloop, bind_Ok_l in Hrun. injection Hrun as <- <-.
  exists st. done.
Qed.

Lemma elem_of_transitions (f : Z → Z → bool) (sites : list Z) (s0 : Z) (j : nat) :
  sites !! 0%nat = Some s0 → f s0 s0 = false →
  j ∈ events_from f s0 0 sites →
  ∃ t p s, j = S t ∧ sites !! t = Some p ∧ sites !! S t = Some s ∧ f p s = true.
Proof.
  intros Hs0 Hf [(_ & s & Hs & Hfs)|(n & p & s & -> & Hp & Hs & Hfs)]%elem_of_events_from.
  - rewrite Hs0 in Hs. injection Hs as <-. congruence.
  - exists n, p, s. done.
Qed.

(** X7: whatever the cooldown, every entry of the hop-in list is a frame
    of nonzero site after a frame of site [0], and every entry of the
    hop-out list a frame of site [0] after a frame of nonzero site: a site
    changing to another nonzero site is no event. *)
Theorem hop_events_only_transitions (cool : Z) (sites : list Z) (ins outs : list nat) :
  hop_events cool sites = Ok (ins, outs) →
  (∀ j, j ∈ ins → ∃ t s, j = S t ∧ sites !! t = Some 0
                         ∧ sites !! S t = Some s ∧ s ≠ 0)
  ∧ (∀ j, j ∈ outs → ∃ t p, j = S t ∧ sites !! t = Some p ∧ p ≠ 0
                            ∧ sites !! S t = Some 0).
Proof.
  intros Hrun.
  destruct sites as [|s0 sites'] eqn:Hsites; [done|]. rewrite <- Hsites in *.
  assert (sites !! 0%nat = Some s0) as Hs0 by (by rewrite Hsites).
  destruct (hop_events_kept cool sites ins outs s0 Hs0 Hrun)
    as (st & <- & <- & _ & [Hisub Hosub _ _]).
  split; intros j Hj.
  - eapply elem_of_sublist in Hj; [|done].
    apply (elem_of_transitions hop_in sites s0) in Hj as (t & p & s & -> & Hp & Hs & Hf);
      [|done|].
    + apply hop_in_true in Hf as [-> ?]. by exists t, s.
    + apply hop_in_false. destruct (decide (s0 = 0)); auto.
  - eapply elem_of_sublist in Hj; [|done].
    apply (elem_of_transitions hop_out sites s0) in Hj as (t & p & s & -> & Hp & Hs & Hf);
      [|done|].
    + apply hop_out_true in Hf as [? ->]. by exists t, p.
    + apply hop_out_false. destruct (decide (s0 = 0)); auto.
Qed.

Lemma hop_events_only_transitions_witness :
  (∀ j, j ∈ [6]%nat → ∃ t s, j = S t ∧ [7; 0; 7; 0; 0; 0; 9] !! t = Some 0
                             ∧ [7; 0; 7; 0; 0; 0; 9] !! S t = Some s ∧ s ≠ 0)
  ∧ (∀ j, j ∈ [3]%nat → ∃ t p, j = S t ∧ [7; 0; 7; 0; 0; 0; 9] !! t = Some p ∧ p ≠ 0
                               ∧ [7; 0; 7; 0; 0; 0; 9] !! S t = Some 0).
Proof.
  apply (hop_events_only_transitions 3 [7; 0; 7; 0; 0; 0; 9] [6]%nat [3]%nat).
  reflexivity.
Defined.

(** X8: the cooldown never removes the latest event: when the sequence
    ends on a nonzero site the last hop-in of the run without cooldown is
    the last entry of the hop-in list, and when it ends on site [0] the
    last hop-out is the last entry of the hop-out list. *)
Theorem hop_events_keeps_last_event (cool : Z) (pre : list Z) (s_end : Z)
    (ins outs ins0 outs0 : list nat) :
  hop_events cool (pre ++ [s_end]) = Ok (ins, outs) →
  hop_events 0 (pre ++ [s_end]) = Ok (ins0, outs0) →
  (s_end ≠ 0 → ∀ e x, ins0 = e ++ [x] → ∃ l, ins = l ++ [x])
  ∧ (s_end = 0 → ∀ e x, outs0 = e ++ [x] → ∃ l, outs = l ++ [x]).
Proof.
  intros Hrun Hrun0. set (sites := pre ++ [s_end]) in *.
  destruct (lookup_lt_is_Some_2 sites 0) as [s0 Hs0].
  { unfold sites. rewrite length_app. simpl. lia. }
  destruct (hop_events_kept cool sites ins outs s0 Hs0 Hrun)
    as (st & <- & <- & Hlast & [_ _ Hilast Holast]).
  assert (last st = s_end) as Hend.
  { rewrite Hlast. unfold sites. by rewrite foldl_app. }
  assert (ins0 = events_from hop_in s0 0 sites
          ∧ outs0 = events_from hop_out s0 0 sites) as [-> ->].
  { unfold hop_events in Hrun0. apply subscript_Ok in Hs0.
    rewrite Hs0, bind_Ok_l in Hrun0.
    destruct (hop_loop_no_cooldown sites 0 (HopState s0 [] [] 0 0))
      as (st0 & Hloop & Hin & Hout); [simpl; lia..|].
    rewrite Hloop, bind_Ok_l in Hrun0. injection Hrun0 as <- <-. done. }
  rewrite Hend in Hilast, Holast. done.
Qed.

Lemma hop_events_keeps_last_event_witness :
  (9 ≠ 0 → ∀ e x, [2; 6]%nat = e ++ [x] → ∃ l, [6]%nat = l ++ [x])
  ∧ (9 = 0 → ∀ e x, [1; 3]%nat = e ++ [x] → ∃ l, [3]%nat = l ++ [x]).
Proof.
  apply (hop_events_keeps_last_event 3 [7; 0; 7; 0; 0; 0] 9
           [6]%nat [3]%nat [2; 6]%nat [1; 3]%nat); reflexivity.
Defined.

Lemma hop_loop_nonpositive (cool : Z) (sites : list Z) :
  cool ≤ 0 →
  ∀ (i : nat) (st : hop_state),
    cool ≤ in_cool st → cool ≤ out_cool st →
    ∃ st', hop_loop cool i sites st = Ok st'
           ∧ steps_in st' = steps_in st ++ events_from hop_in (last st) i sites
           ∧ steps_out st' = steps_out st ++ events_from hop_out (last st) i sites.
Proof.
  intros Hcool. induction sites as [|s sites IH]; intros i st Hic Hoc; simpl.
  - exists st. by rewrite !app_nil_r.
  - assert (∃ st1, hop_step cool st i s = Ok st1 ∧ last st1 = s
              ∧ cool ≤ in_cool st1 ∧ cool ≤ out_cool st1
              ∧ steps_in st1 = steps_in st ++ (if hop_in (last st) s then [i] else [])
              ∧ steps_out st1 = steps_out st ++ (if hop_out (last st) s then [i] else []))
      as (st1 & -> & Hl & Hic1 & Hoc1 & Hin & Hout).
    { unfold hop_step, hop_in, hop_out. destruct st as [l si so ic oc]; simpl in *.
      repeat (case_bool_decide; simpl; try lia);
        eexists; (split; [done|]); simpl; rewrite ?app_nil_r;
        split_and!; done || lia. }
    rewrite bind_Ok_l. destruct (IH (S i) st1 Hic1 Hoc1) as (st' & -> & Hin' & Hout').
    exists st'. rewrite Hin', Hout', Hin, Hout, Hl, <- !app_assoc. done.
Qed.

(** X9: a cooldown that is zero or negative cancels nothing: the
    extractor returns what it returns with [cool = 0]. *)
Theorem hop_events_nonpositive_cooldown (cool : Z) (sites : list Z) :
  cool ≤ 0 → hop_events cool sites = hop_events 0 sites.
Proof.
  intros Hcool. unfold hop_events.
  destruct (subscript sites 0) as [s0|e]; [|done]. rewrite !bind_Ok_l.
  destruct (hop_loop_nonpositive cool sites Hcool 0 (HopState s0 [] [] cool cool))
    as (st & -> & Hin & Hout); [simpl; lia..|].
  destruct (hop_loop_nonpositive 0 sites ltac:(lia) 0 (HopState s0 [] [] 0 0))
    as (st0 & -> & Hin0 & Hout0); [simpl; lia..|].
  rewrite !bind_Ok_l, Hin, Hout, Hin0, Hout0. done.
Qed.

Lemma hop_events_nonpositive_cooldown_witness :
  hop_events (-5) [7; 0; 7; 0; 0; 0; 9] = hop_events 0 [7; 0; 7; 0; 0; 0; 9].
Proof. apply (hop_events_nonpositive_cooldown (-5) [7; 0; 7; 0; 0; 0; 9]). lia. Defined.

(** ** [find_nearest] and [find_in_n_out] as a whole *)





Lemma smooth_all_keys (savgol_filter : list Q → Z → Z → result (list Q))
    (smooth : Z) (trj : dist_dict) :
  ∀ trj', smooth_all savgol_filter trj smooth = Ok trj' → keys trj' = keys trj.
Proof.
  unfold keys. induction trj as [|[k s] trj IH]; intros trj'; simpl.
  - by intros [= <-].
  - intros (s' & _ & (trj'' & Hrest & [= <-])%bind_Ok)%bind_Ok. simpl.
    f_equal. by apply IH.
Qed.

Lemma smooth_all_uniform (savgol_filter : list Q → Z → Z → result (list Q))
    (smooth : Z) (T : nat) (trj : dist_dict) :
  (∀ s, length s = T → ∃ s', savgol_filter s smooth 2 = Ok s' ∧ length s' = T) →
  uniform T trj →
  ∃ trj', smooth_all savgol_filter trj smooth = Ok trj' ∧ uniform T trj'.
Proof.
  intros Hf. induction trj as [|[k s] trj IH]; intros Hu; simpl.
  - by exists [].
  - apply Forall_cons in Hu as [Hs Hu]. simpl in Hs.
    destruct (Hf s Hs) as (s' & -> & Hs'). rewrite bind_Ok_l.
    destruct (IH Hu) as (trj' & -> & Hu'). rewrite bind_Ok_l.
    eexists. split; [done|]. by constructor.
Qed.

Lemma smooth_all_raise (savgol_filter : list Q → Z → Z → result (list Q))
    (smooth : Z) (trj : dist_dict) (k : key) (s : list Q) (e : exn) :
  (k, s) ∈ trj → savgol_filter s smooth 2 = Raise e →
  ∃ e', smooth_all savgol_filter trj smooth = Raise e'.
Proof.
  intros Hin Hraise. induction trj as [|[k' s'] trj IH]; simpl.
  - by apply elem_of_nil in Hin.
  - destruct (savgol_filter s' smooth 2) as [s''|e'] eqn:Hs'; [|by exists e'].
    rewrite bind_Ok_l. apply elem_of_cons in Hin as [[= <- <-]|Hin]; [congruence|].
    destruct (IH Hin) as [e' ->]. by exists e'.
Qed.







(** X13: when the smoother raises on a series of the trajectory,
    [find_nearest] and [find_in_n_out] raise and return nothing. *)
Theorem smoothing_failure_aborts
    (savgol_filter : list Q → Z → Z → result (list Q)) (trj : dist_dict)
    (time_step distance hopping_cutoff : Q) (smooth cool : Z)
    (k : key) (s : list Q) (e : exn) :
  (k, s) ∈ trj → savgol_filter s smooth 2 = Raise e →
  (∃ e', find_nearest savgol_filter trj time_step distance hopping_cutoff smooth
         = Raise e')
  ∧ ∃ e', find_in_n_out savgol_filter trj distance hopping_cutoff smooth cool
          = Raise e'.
Proof.
  intros Hin Hraise.
  destruct (smooth_all_raise savgol_filter smooth trj k s e Hin Hraise) as [e' Hs].
  unfold find_nearest, find_in_n_out.
  destruct (time_span_of trj) as [T|e0]; simpl; [|eauto].
  rewrite Hs. simpl. eauto.
Qed.

Lemma smoothing_failure_aborts_witness :
  (∃ e', find_nearest (λ _ _ _, Raise ValueError) [(KStr 7, qs [1; 9; 1])]
           (1 # 2) 2 4 51 = Raise e')
  ∧ ∃ e', find_in_n_out (λ _ _ _, Raise ValueError) [(KStr 7, qs [1; 9; 1])]
            2 4 51 20 = Raise e'.
Proof.
  apply (smoothing_failure_aborts (λ _ _ _, Raise ValueError)
           [(KStr 7, qs [1; 9; 1])] (1 # 2) 2 4 51 20
           (KStr 7) (qs [1; 9; 1]) ValueError).
  - by apply list_elem_of_singleton.
  - reflexivity.
Defined.

(** X14: with a smoother that returns series of the same length,
    [find_in_n_out] returns on every trajectory with a candidate and
    series of [T >= 1] frames, for every cooldown: two strictly increasing
    lists of frames between 1 and [T - 1]. *)
Theorem find_in_n_out_returns
    (savgol_filter : list Q → Z → Z → result (list Q)) (trj : dist_dict)
    (distance hopping_cutoff : Q) (smooth cool : Z) (T : nat) :
  trj ≠ [] → uniform T trj → (1 ≤ T)%nat →
  (∀ s, length s = T → ∃ s', savgol_filter s smooth 2 = Ok s' ∧ length s' = T) →
  ∃ ins outs,
    find_in_n_out savgol_filter trj distance hopping_cutoff smooth cool = Ok (ins, outs)
    ∧ increasing ins ∧ increasing outs
    ∧ ∀ j, j ∈ ins ∨ j ∈ outs → (1 ≤ j < T)%nat.
Proof.
  intros Hne Hu HT Hf. unfold find_in_n_out.
  rewrite (time_span_of_uniform T), bind_Ok_l by done.
  destruct (smooth_all_uniform savgol_filter smooth T trj Hf Hu) as (trj' & Hsmooth & Hu').
  rewrite Hsmooth, bind_Ok_l. apply smooth_all_keys in Hsmooth as Hk.
  assert (trj' ≠ []) as Hne'.
  { intros ->. destruct trj; [done|]. by unfold keys in Hk. }
  destruct (assign_raw_inv trj' distance hopping_cutoff T) as ([raw sd] & Hraw & Hinv);
    [done..|].
  unfold site_machine. rewrite Hraw.
  destruct Hinv as [Hls _ _ _ _ _]. simpl in *.
  set (sites := py_int <$> raw).
  assert (length sites = T) as Hlen by (unfold sites; by rewrite length_fmap).
  destruct (lookup_lt_is_Some_2 sites 0) as [s0 Hs0]; [lia|].
  unfold hop_events. apply subscript_Ok in Hs0 as Hsub. rewrite Hsub, bind_Ok_l.
  destruct (hop_loop_inv cool sites 0 _ (hop_inv_init cool s0)) as (st & Hloop & Hinv).
  rewrite Hloop, bind_Ok_l. exists (steps_in st), (steps_out st).
  destruct Hinv as [_ _ Hilt Holt Hiinc Hoinc]. split_and!; [done..|].
  assert (hop_events cool sites = Ok (steps_in st, steps_out st)) as Hrun.
  { unfold hop_events. by rewrite Hsub, bind_Ok_l, Hloop. }
  destruct (hop_events_kept cool sites _ _ s0 Hs0 Hrun)
    as (st1 & Hi1 & Ho1 & _ & [Hisub Hosub _ _]).
  rewrite Hi1 in Hisub. rewrite Ho1 in Hosub.
  intros j [Hj|Hj].
  - eapply elem_of_sublist in Hj; [|done].
    apply (elem_of_transitions hop_in sites s0) in Hj as (t & p & s & -> & _ & Hs & _);
      [|done|apply hop_in_false; destruct (decide (s0 = 0)); auto].
    apply lookup_lt_Some in Hs. lia.
  - eapply elem_of_sublist in Hj; [|done].
    apply (elem_of_transitions hop_out sites s0) in Hj as (t & p & s & -> & _ & Hs & _);
      [|done|apply hop_out_false; destruct (decide (s0 = 0)); auto].
    apply lookup_lt_Some in Hs. lia.
Qed.

Lemma find_in_n_out_returns_witness :
  ∃ ins outs,
    find_in_n_out no_smoothing [(KStr 7, qs [1; 9; 1])] 2 4 51 20 = Ok (ins, outs)
    ∧ increasing ins ∧ increasing outs
    ∧ ∀ j, j ∈ ins ∨ j ∈ outs → (1 ≤ j < 3)%nat.
Proof.
  apply (find_in_n_out_returns no_smoothing [(KStr 7, qs [1; 9; 1])] 2 4 51 20 3).
  - discriminate.
  - repeat constructor.
  - lia.
  - intros s Hs. by exists s.
Defined.

(** ** The keys, the tail and the events of the builder *)

Lemma dict_get_None (trj : dist_dict) (k : key) :
  dict_get trj k = None ↔ k ∉ keys trj.
Proof.
  unfold keys. induction trj as [|[k' s] trj IH]; simpl.
  - split; [intros _ ?%elem_of_nil; done|done].
  - case_decide as Hk.
    + split; [done|]. intros Hn. exfalso. apply Hn. subst. left.
    + rewrite IH, not_elem_of_cons. split; [by intros ?|by intros [_ ?]].
Qed.

Lemma io_bind_events {A B} (m : io A) (f : A → io B) (a : A) :
  m.2 = Ok a → (m ≫= f).1 = m.1 ++ (f a).1.
Proof. unfold mbind, io_bind. by intros ->. Qed.

Section BuilderKeys.
Variables (nvt_run : Universe) (li_atom_id : Z) (run_start run_end : nat).

Let N : nat := (run_end - run_start)%nat.

Lemma add_atom_keys (dv : dist_dict) (a : Z) :
  NoDup (keys dv) → fresh N dv →
  NoDup (keys (add_atom run_start run_end dv a))
  ∧ fresh N (add_atom run_start run_end dv a)
  ∧ ∀ k, k ∈ keys (add_atom run_start run_end dv a) ↔ k ∈ keys dv ∨ k = KStr a.
Proof.
  intros Hnd Hfresh. unfold add_atom.
  destruct (dict_get dv (KStr a)) as [s|] eqn:Hget.
  - split_and!; [done..|]. intros k. split; [by left|].
    intros [?| ->]; [done|]. apply dict_get_Some in Hget.
    unfold keys. apply list_elem_of_fmap. by exists (KStr a, s).
  - apply dict_get_None in Hget. unfold keys in *. rewrite fmap_app. simpl.
    split_and!.
    + apply NoDup_app. split_and!; [done| |apply NoDup_singleton].
      intros k Hk ->%list_elem_of_singleton. done.
    + apply Forall_app. split; [done|]. by repeat constructor.
    + intros k. rewrite elem_of_app, list_elem_of_singleton. done.
Qed.

Lemma shell_keys (shell : list Z) :
  ∀ dv, NoDup (keys dv) → fresh N dv →
        NoDup (keys (foldl (add_atom run_start run_end) dv shell))
        ∧ fresh N (foldl (add_atom run_start run_end) dv shell)
        ∧ ∀ k, k ∈ keys (foldl (add_atom run_start run_end) dv shell)
               ↔ k ∈ keys dv ∨ ∃ a, k = KStr a ∧ a ∈ shell.
Proof.
  induction shell as [|a shell IH]; intros dv Hnd Hfresh; simpl.
  - split_and!; [done..|]. intros k. split; [by left|].
    intros [?|(a & _ & ?%elem_of_nil)]; done.
  - destruct (add_atom_keys dv a Hnd Hfresh) as (Hnd1 & Hfresh1 & Hk1).
    destruct (IH _ Hnd1 Hfresh1) as (Hnd2 & Hfresh2 & Hk2).
    split_and!; [done..|]. intros k. rewrite Hk2, Hk1. split.
    + intros [[?| ->]|(a' & -> & Ha')]; [by left| |].
      * right. exists a. split; [done|left].
      * right. exists a'. split; [done|by right].
    + intros [?|(a' & -> & [->|?]%elem_of_cons)]; [by left; left|by left; right|].
      right. by exists a'.
Qed.

Lemma scan_frames_keys (sel : selection) (frames : list nat) :
  ∀ dv, NoDup (keys dv) → fresh N dv →
        ∃ dv', (scan_frames nvt_run run_start run_end sel frames dv).2 = Ok dv'
               ∧ (scan_frames nvt_run run_start run_end sel frames dv).1
                 = (λ ts, EvSelect ts sel) <$> frames
               ∧ NoDup (keys dv') ∧ fresh N dv'
               ∧ ∀ k, k ∈ keys dv'
                      ↔ k ∈ keys dv
                        ∨ ∃ a ts, k = KStr a ∧ ts ∈ frames
                                  ∧ a ∈ select_atoms nvt_run ts sel.
Proof.
  induction frames as [|ts frames IH]; intros dv Hnd Hfresh; cbn [scan_frames].
  - exists dv. split_and!; [done..|]. intros k. split; [by left|].
    intros [?|(a & ts & _ & ?%elem_of_nil & _)]; done.
  - destruct (shell_keys (select_atoms nvt_run ts sel) dv Hnd Hfresh)
      as (Hnd1 & Hfresh1 & Hk1).
    destruct (IH _ Hnd1 Hfresh1) as (dv' & Hval & Hev & Hnd' & Hfresh' & Hk').
    exists dv'. rewrite io_bind_value. cbn [emit snd].
    split_and!; [done| |done..|].
    + rewrite (io_bind_events _ _ tt) by done. cbn [emit fst]. by rewrite Hev.
    + intros k. rewrite Hk', Hk1. split.
      * intros [[?|(a & -> & Ha)]|(a & ts' & -> & Hts & Ha)]; [by left| |].
        -- right. exists a, ts. split_and!; [done|left|done].
        -- right. exists a, ts'. split_and!; [done|by right|done].
      * intros [?|(a & ts' & -> & [->|?]%elem_of_cons & Ha)]; [by left; left| |].
        -- left. right. by exists a.
        -- right. by exists a, ts'.
Qed.

Lemma fill_frame_events (ts time_count : nat) (entries : dist_dict) :
  uniform N entries → (time_count < N)%nat →
  (fill_frame nvt_run li_atom_id ts time_count entries).1 = distance_events li_atom_id ts entries.
Proof.
  intros Hu Ht. unfold distance_events, keys.
  induction entries as [|[k s] entries IH]; cbn [fill_frame]; [done|].
  apply Forall_cons in Hu as [Hs Hu]. simpl in Hs.
  rewrite (io_bind_events _ _ tt) by done. cbn [emit fst].
  rewrite (io_bind_events _ _ (<[time_count:=filled nvt_run li_atom_id ts k]> s)).
  2:{ cbn [lift snd]. by rewrite setitem_Ok by lia. }
  cbn [lift fst]. 
  erewrite io_bind_events
    by (by apply (fill_frame_value nvt_run li_atom_id run_start run_end)).
  rewrite IH by done. cbn. by rewrite app_nil_r.
Qed.

Lemma fill_frames_shape (frames : list nat) :
  ∀ (time_count : nat) (dv : dist_dict),
    uniform N dv → (time_count + length frames ≤ N)%nat →
    ∃ dv', (fill_frames nvt_run li_atom_id frames time_count dv).2 = Ok dv'
           ∧ (fill_frames nvt_run li_atom_id frames time_count dv).1
             = concat ((λ ts, distance_events li_atom_id ts dv) <$> frames)
           ∧ keys dv' = keys dv
           ∧ ∀ k s', (k, s') ∈ dv' →
               ∃ s, (k, s) ∈ dv
                    ∧ ∀ j, (j < time_count ∨ time_count + length frames ≤ j)%nat →
                           s' !! j = s !! j.
Proof.
  induction frames as [|ts frames IH]; intros tc dv Hu Hlen;
    cbn [fill_frames length] in *.
  - exists dv. split_and!; [done..|]. intros k s' Hin. by exists s'.
  - set (dv1 := (λ e, (e.1, <[tc:=filled nvt_run li_atom_id ts e.1]> e.2)) <$> dv).
    assert ((fill_frame nvt_run li_atom_id ts tc dv).2 = Ok dv1) as Hval1.
    { apply (fill_frame_value nvt_run li_atom_id run_start run_end); [done|lia]. }
    assert (keys dv1 = keys dv) as Hkeys1.
    { unfold keys, dv1. rewrite <- list_fmap_compose. by apply list_fmap_ext. }
    destruct (IH (S tc) dv1) as (dv' & Hval & Hev & Hkeys & Hspec); [|lia|].
    { unfold dv1, uniform. rewrite Forall_fmap. eapply Forall_impl; [done|].
      intros [k s]; simpl. by rewrite length_insert. }
    exists dv'. split_and!.
    + by rewrite io_bind_value, Hval1.
    + rewrite (io_bind_events _ _ dv1) by done.
      rewrite fill_frame_events, Hev by (done || lia). cbn [fmap list_fmap concat].
      f_equal. f_equal. apply list_fmap_ext. intros _ ts' _.
      unfold distance_events. by rewrite Hkeys1.
    + by rewrite Hkeys, Hkeys1.
    + intros k s' Hin. destruct (Hspec k s' Hin) as (s1 & Hin1 & Hkeep).
      apply list_elem_of_fmap in Hin1 as ([k0 s] & [= -> ->] & Hin0). simpl in *.
      exists s. split; [done|]. intros j Hj. rewrite Hkeep by lia.
      apply list_lookup_insert_ne. lia.
Qed.
End BuilderKeys.

(** X15: the keys of the dictionary the builder returns are, without
    repetition, the strings of the ids of the atoms selected at some frame
    of the window. *)
Theorem trajectory_keys (nvt_run : Universe) (li_atom_id : Z)
    (run_start run_end : nat) (species : string)
    (selection_dict : gmap string string) (distance : Q) (expr : string) :
  selection_dict !! species = Some expr →
  ∃ dv,
    (trajectory nvt_run li_atom_id run_start run_end species selection_dict distance).2
    = Ok (Some dv)
    ∧ NoDup (keys dv)
    ∧ ∀ k, k ∈ keys dv
           ↔ ∃ a ts, k = KStr a ∧ ts ∈ slice_frames nvt_run run_start run_end
                     ∧ a ∈ select_atoms nvt_run ts
                             (Selection expr distance (li_atom_id - 1)).
Proof.
  intros Hsel. unfold trajectory. rewrite Hsel, io_bind_value.
  destruct (scan_frames_keys nvt_run run_start run_end
              (Selection expr distance (li_atom_id - 1))
              (slice_frames nvt_run run_start run_end) [])
    as (dv1 & -> & _ & Hnd & Hfresh & Hkeys); [constructor|constructor|].
  rewrite io_bind_value.
  destruct (fill_frames_shape nvt_run li_atom_id run_start run_end
              (slice_frames nvt_run run_start run_end) 0 dv1)
    as (dv & -> & _ & Hk & _).
  { eapply Forall_impl; [done|]. intros e ->. apply length_replicate. }
  { unfold slice_frames. rewrite length_seq. lia. }
  exists dv. split; [done|]. rewrite Hk. split; [done|].
  intros k. rewrite Hkeys. split; [|by right].
  intros [?%elem_of_nil|?]; done.
Qed.

Lemma trajectory_keys_witness :
  ∃ dv,
    (trajectory two_frames 1 0 2 "anion" {["anion" := "type 3"]} 3).2 = Ok (Some dv)
    ∧ NoDup (keys dv)
    ∧ ∀ k, k ∈ keys dv
           ↔ ∃ a ts, k = KStr a ∧ ts ∈ slice_frames two_frames 0 2
                     ∧ a ∈ select_atoms two_frames ts (Selection "type 3" 3 (1 - 1)).
Proof.
  apply (trajectory_keys two_frames 1 0 2 "anion" {["anion" := "type 3"]} 3 "type 3").
  reflexivity.
Defined.

(** X16: when the window ends after the last frame of the trajectory,
    the entries of every series past the last frame keep the sentinel
    [100]. *)
Theorem trajectory_tail_keeps_sentinel (nvt_run : Universe) (li_atom_id : Z)
    (run_start run_end : nat) (species : string)
    (selection_dict : gmap string string) (distance : Q) (expr : string) :
  selection_dict !! species = Some expr →
  ∃ dv,
    (trajectory nvt_run li_atom_id run_start run_end species selection_dict distance).2
    = Ok (Some dv)
    ∧ ∀ k s j, (k, s) ∈ dv →
               (run_end `min` n_frames nvt_run - run_start ≤ j < run_end - run_start)%nat →
               s !! j = Some sentinel.
Proof.
  intros Hsel. unfold trajectory. rewrite Hsel, io_bind_value.
  destruct (scan_frames_keys nvt_run run_start run_end
              (Selection expr distance (li_atom_id - 1))
              (slice_frames nvt_run run_start run_end) [])
    as (dv1 & -> & _ & Hnd & Hfresh & Hkeys); [constructor|constructor|].
  rewrite io_bind_value.
  destruct (fill_frames_shape nvt_run li_atom_id run_start run_end
              (slice_frames nvt_run run_start run_end) 0 dv1)
    as (dv & -> & _ & _ & Hspec).
  { eapply Forall_impl; [done|]. intros e ->. apply length_replicate. }
  { unfold slice_frames. rewrite length_seq. lia. }
  exists dv. split; [done|]. intros k s j Hin Hj.
  destruct (Hspec k s Hin) as (s1 & Hin1 & Hkeep).
  rewrite Hkeep.
  - eapply Forall_forall in Hfresh; [|done]. simpl in Hfresh. rewrite Hfresh.
    apply lookup_replicate_2. lia.
  - right. unfold slice_frames. rewrite length_seq. lia.
Qed.

Lemma trajectory_tail_keeps_sentinel_witness :
  ∃ dv,
    (trajectory two_frames 1 0 3 "anion" {["anion" := "type 3"]} 3).2 = Ok (Some dv)
    ∧ ∀ k s j, (k, s) ∈ dv →
               (3 `min` n_frames two_frames - 0 ≤ j < 3 - 0)%nat →
               s !! j = Some sentinel.
Proof.
  apply (trajectory_tail_keeps_sentinel two_frames 1 0 3 "anion"
           {["anion" := "type 3"]} 3 "type 3").
  reflexivity.
Defined.

(** X17: the builder selects atoms once for every frame of the window,
    in order, and only then computes distances: for every frame in order,
    one distance for every key of the returned dictionary. *)
Theorem trajectory_events (nvt_run : Universe) (li_atom_id : Z)
    (run_start run_end : nat) (species : string)
    (selection_dict : gmap string string) (distance : Q) (expr : string) :
  selection_dict !! species = Some expr →
  ∃ dv,
    (trajectory nvt_run li_atom_id run_start run_end species selection_dict distance).2
    = Ok (Some dv)
    ∧ (trajectory nvt_run li_atom_id run_start run_end species selection_dict distance).1
      = ((λ ts, EvSelect ts (Selection expr distance (li_atom_id - 1)))
           <$> slice_frames nvt_run run_start run_end)
        ++ concat ((λ ts, (λ k, EvDistance ts (li_atom_id - 1) (py_int k - 1)) <$> keys dv)
                     <$> slice_frames nvt_run run_start run_end).
Proof.
  intros Hsel. unfold trajectory. rewrite Hsel.
  destruct (scan_frames_keys nvt_run run_start run_end
              (Selection expr distance (li_atom_id - 1))
              (slice_frames nvt_run run_start run_end) [])
    as (dv1 & Hval1 & Hev1 & Hnd & Hfresh & Hkeys); [constructor|constructor|].
  destruct (fill_frames_shape nvt_run li_atom_id run_start run_end
              (slice_frames nvt_run run_start run_end) 0 dv1)
    as (dv & Hval & Hev & Hk & _).
  { eapply Forall_impl; [done|]. intros e ->. apply length_replicate. }
  { unfold slice_frames. rewrite length_seq. lia. }
  exists dv. split.
  - by rewrite io_bind_value, Hval1, io_bind_value, Hval.
  - rewrite (io_bind_events _ _ dv1) by done. rewrite Hev1.
    rewrite (io_bind_events _ _ dv) by done. rewrite Hev. cbn. rewrite app_nil_r.
    f_equal. f_equal. apply list_fmap_ext. intros _ ts _.
    unfold distance_events. by rewrite Hk.
Qed.

Lemma trajectory_events_witness :
  ∃ dv,
    (trajectory two_frames 1 0 2 "anion" {["anion" := "type 3"]} 3).2 = Ok (Some dv)
    ∧ (trajectory two_frames 1 0 2 "anion" {["anion" := "type 3"]} 3).1
      = ((λ ts, EvSelect ts (Selection "type 3" 3 (1 - 1)))
           <$> slice_frames two_frames 0 2)
        ++ concat ((λ ts, (λ k, EvDistance ts (1 - 1) (py_int k - 1)) <$> keys dv)
                     <$> slice_frames two_frames 0 2).
Proof.
  apply (trajectory_events two_frames 1 0 2 "anion" {["anion" := "type 3"]} 3 "type 3").
  reflexivity.
Defined.

(** ** The solvation structure of one atom *)

Section NeighborSimpleFacts.
Variables (nvt_run : Universe) (li_atom_id : Z).
Variables (select_dict : gmap string string).

Lemma simple_frame_value (expr cation : string) (cutoff : Q) (ts time_count : nat)
    (cn_values : list Z) :
  select_dict !! "cation" = Some cation →
  (time_count < length cn_values)%nat →
  ∃ v, (simple_frame nvt_run li_atom_id select_dict expr cutoff ts time_count cn_values).2
       = Ok (<[time_count:=v]> cn_values)
       ∧ structure_of nvt_run li_atom_id expr cation cutoff ts v.
Proof.
  intros Hcat Ht. unfold simple_frame, structure_of.
  rewrite io_bind_value. cbn [emit snd].
  set (shell := select_atoms nvt_run ts (Selection expr cutoff (li_atom_id - 1))).
  destruct shell as [|a [|b shell']] eqn:Hshell; cbn [length bool_decide decide_rel].
  - rewrite bool_decide_eq_true_2 by done. cbn [lift snd]. rewrite setitem_Ok by done.
    exists 1. split; [done|]. split_and!; [by left|done|].
    split; [done|]. by intros (a & ? & _).
  - rewrite bool_decide_eq_false_2, bool_decide_eq_true_2 by done.
    rewrite Hcat. rewrite io_bind_value. cbn [lift snd py_concat_operand].
    rewrite io_bind_value. cbn [lift snd].
    change (subscript [a] 0) with (Ok a). cbn beta iota.
    rewrite io_bind_value. cbn [emit snd].
    set (n := length (select_atoms nvt_run ts (Selection cation cutoff (a - 1)))).
    case_bool_decide as Hn; cbn [lift snd]; rewrite setitem_Ok by done.
    + exists 2. split; [done|]. split_and!; [by right; left|done|].
      split; [|done]. intros _. exists a. split; [done|]. lia.
    + exists 3. split; [done|]. split_and!; [by right; right|done|].
      split; [done|]. intros (a' & [= <-] & Hlen). fold n in Hlen. lia.
  - rewrite !bool_decide_eq_false_2 by done. cbn [lift snd]. rewrite setitem_Ok by done.
    exists 3. split; [done|]. split_and!; [by right; right|done|].
    split; [done|]. by intros (a' & ? & _).
Qed.

Lemma simple_frames_value (expr cation : string) (cutoff : Q) (frames : list nat) :
  select_dict !! "cation" = Some cation →
  ∀ (time_count : nat) (cn_values : list Z),
    (time_count + length frames ≤ length cn_values)%nat →
    ∃ cn, (simple_frames nvt_run li_atom_id select_dict expr cutoff frames
             time_count cn_values).2 = Ok cn
          ∧ length cn = length cn_values
          ∧ (∀ j, (j < time_count)%nat → cn !! j = cn_values !! j)
          ∧ ∀ i ts, frames !! i = Some ts →
              ∃ v, cn !! (time_count + i)%nat = Some v
                   ∧ structure_of nvt_run li_atom_id expr cation cutoff ts v.
Proof.
  intros Hcat. induction frames as [|ts frames IH]; intros tc cn0 Hlen;
    cbn [simple_frames length] in *.
  - exists cn0. split_and!; [done..|]. by intros i ts ?.
  - rewrite io_bind_value.
    destruct (simple_frame_value expr cation cutoff ts tc cn0 Hcat) as (v & -> & Hv);
      [lia|].
    destruct (IH (S tc) (<[tc:=v]> cn0)) as (cn & -> & Hl & Hkeep & Hspec).
    { rewrite length_insert. lia. }
    exists cn. split_and!; [done| | |].
    + by rewrite Hl, length_insert.
    + intros j Hj. rewrite Hkeep by lia. apply list_lookup_insert_ne. lia.
    + intros [|i] ts' Hi; simpl in Hi.
      * injection Hi as <-. exists v. split; [|done].
        rewrite Nat.add_0_r, Hkeep by lia. apply list_lookup_insert_eq. lia.
      * rewrite <- Nat.add_succ_comm. by apply Hspec.
Qed.
End NeighborSimpleFacts.

(** X18: when the first species of [species_dict] and ["cation"] are
    keys of the selection mapping, [num_of_neighbor_one_li_simple] returns
    under ["total"] one value for every frame of the window: 1 when no atom
    of the species is selected around the reference atom, 2 when one is
    and the selection of cations around it holds one atom, 3 otherwise. *)
Theorem simple_classifies_frames (nvt_run : Universe) (li_atom_id : Z)
    (select_dict : gmap string string) (species : string) (cutoff : Q)
    (others : list (string * Q)) (run_start run_end : nat) (expr cation : string) :
  select_dict !! species = Some expr →
  select_dict !! "cation" = Some cation →
  ∃ cn,
    (num_of_neighbor_one_li_simple nvt_run li_atom_id select_dict
       ((species, cutoff) :: others) run_start run_end).2
    = Ok (Some {["total" := cn]})
    ∧ length cn = length (slice_frames nvt_run run_start run_end)
    ∧ ∀ i ts, slice_frames nvt_run run_start run_end !! i = Some ts →
        ∃ v, cn !! i = Some v
             ∧ structure_of nvt_run li_atom_id expr cation cutoff ts v.
Proof.
  intros Hsel Hcat. unfold num_of_neighbor_one_li_simple.
  rewrite io_bind_value. cbn [lift snd].
  change (subscript ((species, cutoff) :: others) 0) with (Ok (species, cutoff)).
  cbn beta iota. cbn [fst snd]. rewrite Hsel, io_bind_value.
  destruct (simple_frames_value nvt_run li_atom_id select_dict expr cation cutoff
              (slice_frames nvt_run run_start run_end) Hcat 0
              (replicate (length (slice_frames nvt_run run_start run_end)) 0))
    as (cn & -> & Hl & _ & Hspec).
  { rewrite length_replicate. lia. }
  exists cn. split_and!; [done| |done]. by rewrite Hl, length_replicate.
Qed.

Lemma simple_classifies_frames_witness :
  ∃ cn,
    (num_of_neighbor_one_li_simple three_frames 1
       {["anion" := "type 3"; "cation" := "type 1"]}
       [("anion", 3%Q)] 0 3).2
    = Ok (Some {["total" := cn]})
    ∧ length cn = length (slice_frames three_frames 0 3)
    ∧ ∀ i ts, slice_frames three_frames 0 3 !! i = Some ts →
        ∃ v, cn !! i = Some v
             ∧ structure_of three_frames 1 "type 3" "type 1" 3 ts v.
Proof.
  apply (simple_classifies_frames three_frames 1
           {["anion" := "type 3"; "cation" := "type 1"]} "anion" 3 [] 0 3
           "type 3" "type 1"); reflexivity.
Defined.

(** X19: when ["cation"] is no key of the selection mapping and some
    frame of the window has exactly one atom of the species selected,
    [num_of_neighbor_one_li_simple] raises [TypeError]. *)
Theorem simple_needs_cation (nvt_run : Universe) (li_atom_id : Z)
    (select_dict : gmap string string) (species : string) (cutoff : Q)
    (others : list (string * Q)) (run_start run_end : nat) (expr : string) (ts : nat) :
  select_dict !! species = Some expr →
  select_dict !! "cation" = None →
  ts ∈ slice_frames nvt_run run_start run_end →
  length (select_atoms nvt_run ts (Selection expr cutoff (li_atom_id - 1))) = 1%nat →
  (num_of_neighbor_one_li_simple nvt_run li_atom_id select_dict
     ((species, cutoff) :: others) run_start run_end).2
  = Raise TypeError.
Proof.
  intros Hsel Hcat Hts Hone. unfold num_of_neighbor_one_li_simple.
  rewrite io_bind_value. cbn [lift snd].
  change (subscript ((species, cutoff) :: others) 0) with (Ok (species, cutoff)).
  cbn beta iota. cbn [fst snd]. rewrite Hsel, io_bind_value.
  assert (∀ frames tc cn0,
            ts ∈ frames → (tc + length frames ≤ length cn0)%nat →
            (simple_frames nvt_run li_atom_id select_dict expr cutoff frames tc cn0).2
            = Raise TypeError) as Hloop.
  { induction frames as [|ts' frames IH]; intros tc cn0 Hin Hlen.
    - by apply elem_of_nil in Hin.
    - cbn [simple_frames length] in *. rewrite io_bind_value.
      unfold simple_frame at 1. rewrite io_bind_value. cbn [emit snd].
      set (shell := select_atoms nvt_run ts' (Selection expr cutoff (li_atom_id - 1))).
      destruct (decide (length shell = 1%nat)) as [Hlen1|Hlen1].
      + rewrite bool_decide_eq_false_2, bool_decide_eq_true_2 by (done || lia).
        by rewrite Hcat, io_bind_value.
      + assert (ts ∈ frames) as Hin'.
        { apply elem_of_cons in Hin as [->|?]; [|done]. by fold shell in Hone. }
        assert (∃ v, (if bool_decide (length shell = 0%nat)
                      then lift (setitem cn0 tc 1)
                      else if bool_decide (length shell = 1%nat) then _
                           else lift (setitem cn0 tc 3)).2 = Ok (<[tc:=v]> cn0))
          as (v & ->).
        { case_bool_decide.
          - exists 1. cbn [lift snd]. by rewrite setitem_Ok by lia.
          - rewrite bool_decide_eq_false_2 by done. exists 3. cbn [lift snd].
            by rewrite setitem_Ok by lia. }
        apply IH; [done|]. rewrite length_insert. lia. }
  rewrite Hloop; [done..|]. rewrite length_replicate. lia.
Qed.

Lemma simple_needs_cation_witness :
  (num_of_neighbor_one_li_simple three_frames 1 {["anion" := "type 3"]}
     [("anion", 3%Q)] 0 3).2
  = Raise TypeError.
Proof.
  apply (simple_needs_cation three_frames 1 {["anion" := "type 3"]} "anion" 3 [] 0 3
           "type 3" 1%nat).
  - reflexivity.
  - reflexivity.
  - vm_compute. right. left.
  - reflexivity.
Defined.
